(** * SHA-256 (src/main.c): a shallow embedding and its specification

    The C function [sha256] hashes a complete, already buffered input in
    one call.  This development embeds it in Rocq and checks the
    statements of the specification against the embedding.

    Conventions of the model:
    - a [uint32_t] is a [Z] in [[0, 2^32)], a [uint8_t] a [Z] in
      [[0, 2^8)], a [size_t] and a [uint64_t] a [Z] in [[0, 2^64)]; every
      operation that can leave its range in C has its wrap-around written
      out ([wrap32], [wrap64]);
    - the host is little endian, as the comments of the source assume
      ("convert the message to big endian", "our final hash value is in
      little endian"): the block [M] is seen as 64 bytes while it is filled
      through [memcpy] and the [uint8_t *] cast, and as sixteen words
      afterwards;
    - the input [data] is a pointer: it is modelled by the function that
      reads the byte at a given offset from it. *)

From Stdlib Require Import ZArith Lia List Bool Ascii String.
From coqutil Require Import Z.bitblast.
From stdpp Require Import base list list_numbers.

Local Open Scope Z_scope.

(** ** Fixed-width integers *)

Definition wrap32 (x : Z) : Z := x mod 2 ^ 32.
Definition wrap64 (x : Z) : Z := x mod 2 ^ 64.

(** [x + y] on [uint32_t]. *)
Definition add32 (x y : Z) : Z := wrap32 (x + y).
(** [~x] on [uint32_t]. *)
Definition not32 (x : Z) : Z := wrap32 (Z.lnot x).
(** [x << n] on [uint32_t]. *)
Definition shl32 (x n : Z) : Z := wrap32 (Z.shiftl x n).
(** [x >> n] on an unsigned integer. *)
Definition shr (x n : Z) : Z := Z.shiftr x n.

Definition is_u8 (x : Z) : Prop := 0 <= x < 2 ^ 8.
Definition is_u32 (x : Z) : Prop := 0 <= x < 2 ^ 32.
Definition is_size_t (x : Z) : Prop := 0 <= x < 2 ^ 64.

(** ** The macros of main.c *)

Definition CH (x y z : Z) : Z := Z.lxor (Z.land x y) (Z.land (not32 x) z).

Definition MAJ (x y z : Z) : Z :=
  Z.lxor (Z.lxor (Z.land x y) (Z.land x z)) (Z.land y z).

Definition ROTR (x n : Z) : Z := Z.lor (shr x n) (shl32 x (32 - n)).

Definition ROTL (x n : Z) : Z := Z.lor (shl32 x n) (shr x (32 - n)).

Definition e0 (x : Z) : Z := Z.lxor (Z.lxor (ROTR x 2) (ROTR x 13)) (ROTR x 22).
Definition e1 (x : Z) : Z := Z.lxor (Z.lxor (ROTR x 6) (ROTR x 11)) (ROTR x 25).

Definition s0 (x : Z) : Z := Z.lxor (Z.lxor (ROTR x 7) (ROTR x 18)) (shr x 3).
Definition s1 (x : Z) : Z := Z.lxor (Z.lxor (ROTR x 17) (ROTR x 19)) (shr x 10).

Definition BYTESWAP (x : Z) : Z :=
  Z.lor (Z.land (ROTR x 8) 0xff00ff00) (Z.land (ROTL x 8) 0x00ff00ff).

Definition MIN (a b : Z) : Z := if a <? b then a else b.

(** ** Constants *)

Definition K : list Z :=
  [ 0x428A2F98; 0x71374491; 0xB5C0FBCF; 0xE9B5DBA5; 0x3956C25B; 0x59F111F1; 0x923F82A4; 0xAB1C5ED5;
    0xD807AA98; 0x12835B01; 0x243185BE; 0x550C7DC3; 0x72BE5D74; 0x80DEB1FE; 0x9BDC06A7; 0xC19BF174;
    0xE49B69C1; 0xEFBE4786; 0x0FC19DC6; 0x240CA1CC; 0x2DE92C6F; 0x4A7484AA; 0x5CB0A9DC; 0x76F988DA;
    0x983E5152; 0xA831C66D; 0xB00327C8; 0xBF597FC7; 0xC6E00BF3; 0xD5A79147; 0x06CA6351; 0x14292967;
    0x27B70A85; 0x2E1B2138; 0x4D2C6DFC; 0x53380D13; 0x650A7354; 0x766A0ABB; 0x81C2C92E; 0x92722C85;
    0xA2BFE8A1; 0xA81A664B; 0xC24B8B70; 0xC76C51A3; 0xD192E819; 0xD6990624; 0xF40E3585; 0x106AA070;
    0x19A4C116; 0x1E376C08; 0x2748774C; 0x34B0BCB5; 0x391C0CB3; 0x4ED8AA4A; 0x5B9CCA4F; 0x682E6FF3;
    0x748F82EE; 0x78A5636F; 0x84C87814; 0x8CC70208; 0x90BEFFFA; 0xA4506CEB; 0xBEF9A3F7; 0xC67178F2 ].

(** The initial value of the local array [H]. *)
Definition H_init : list Z :=
  [ 0x6A09E667; 0xBB67AE85; 0x3C6EF372; 0xA54FF53A;
    0x510E527F; 0x9B05688C; 0x1F83D9AB; 0x5BE0CD19 ].

(** ** The input buffer *)

(** [data k] is the byte [data[k]]. *)
Definition buffer : Type := Z -> Z.

Definition buffer_of_list (l : list Z) : buffer :=
  fun k => l !!! Z.to_nat k.

(** ** Preparing a message block *)

(** [size_t N = ( len / 64 ) + 1 + ( len % 64 >= 56 ? 1 : 0 )]. *)
Definition block_count (len : Z) : Z :=
  wrap64 (wrap64 (len / 64 + 1) + (if len mod 64 >=? 56 then 1 else 0)).

(** [memcpy( dst, &src[ pos ], n )], one byte after the other. *)
Fixpoint memcpy (dst : list Z) (src : buffer) (pos : Z) (n : nat) : list Z :=
  match n, dst with
  | S n', _ :: dst' => src pos :: memcpy dst' src (pos + 1) n'
  | _, _ => dst
  end.

(** [MIN( len - data_pos, 64 )]. *)
Definition copy_len (len data_pos : Z) : Z := MIN (wrap64 (len - data_pos)) 64.

(** The condition under which the [0x80] byte is stored. *)
Definition pad_cond (len N i msgblk_len : Z) : bool :=
  ((msgblk_len <? 64) && negb (msgblk_len =? 0))
  || ((len mod 64 =? 0) && (i =? N)).

(** The 64 bytes of [M] after the copy and the padding store. *)
Definition msgblk_bytes (data : buffer) (len N i data_pos : Z) : list Z :=
  let M := replicate 64 0 in
  let msgblk_len := copy_len len data_pos in
  let M := if 0 <? msgblk_len
           then memcpy M data data_pos (Z.to_nat msgblk_len) else M in
  if pad_cond len N i msgblk_len
  then <[Z.to_nat msgblk_len := 0x80]> M
  else M.

(** The [uint32_t] that the bytes [b0 b1 b2 b3], in the order of their
    addresses, stand for on a little-endian host. *)
Definition le32 (b0 b1 b2 b3 : Z) : Z :=
  Z.lor (Z.lor (Z.lor b0 (Z.shiftl b1 8)) (Z.shiftl b2 16)) (Z.shiftl b3 24).

(** The word [M[ w ]] of a block held as bytes. *)
Definition load32 (b : list Z) (w : nat) : Z :=
  le32 (b !!! (4 * w)%nat) (b !!! (4 * w + 1)%nat)
       (b !!! (4 * w + 2)%nat) (b !!! (4 * w + 3)%nat).

(** [for ( w = 0; w < 16; w++ ) M[ w ] = BYTESWAP( M[ w ] )]. *)
Definition msgblk_words (b : list Z) : list Z :=
  (fun w => BYTESWAP (load32 b w)) <$> seq 0 16.

(** The body of [if ( i == N )]. *)
Definition set_bitlen (len : Z) (M : list Z) : list Z :=
  let bitlen := wrap64 (len * 8) in
  let M := <[15%nat := wrap32 bitlen]> M in
  <[14%nat := wrap32 (shr bitlen 32)]> M.

(** The sixteen words of [M] handed to the message schedule. *)
Definition msgblk (data : buffer) (len N i data_pos : Z) : list Z :=
  let M := msgblk_words (msgblk_bytes data len N i data_pos) in
  if i =? N then set_bitlen len M else M.

(** ** The message schedule *)

(** [for ( t = 0; t < 16; t++ ) W[ t ] = M[ t ]], [n] iterations from [t]. *)
Fixpoint schedule_copy (n t : nat) (M W : list Z) : list Z :=
  match n with
  | O => W
  | S n' => schedule_copy n' (S t) M (<[t := M !!! t]> W)
  end.

(** The right-hand side of the assignment to [W[ t ]], [16 <= t]. *)
Definition schedule_word (W : list Z) (t : nat) : Z :=
  add32 (add32 (add32 (s1 (W !!! (t - 2)%nat)) (W !!! (t - 7)%nat))
               (s0 (W !!! (t - 15)%nat)))
        (W !!! (t - 16)%nat).

(** [for ( t = 16; t < 64; t++ ) W[ t ] = ...], [n] iterations from [t]. *)
Fixpoint schedule_expand (n t : nat) (W : list Z) : list Z :=
  match n with
  | O => W
  | S n' => schedule_expand n' (S t) (<[t := schedule_word W t]> W)
  end.

(** [W] is not initialised in the source; [W0] is what the array holds
    when the first loop starts. *)
Definition schedule_from (W0 M : list Z) : list Z :=
  schedule_expand 48 16 (schedule_copy 16 0 M W0).

Definition schedule (M : list Z) : list Z :=
  schedule_from (replicate 64 0) M.

(** ** Compression *)

Record vars : Type := Vars {
  wv_a : Z; wv_b : Z; wv_c : Z; wv_d : Z;
  wv_e : Z; wv_f : Z; wv_g : Z; wv_h : Z
}.

(** The body of the loop over the 64 rounds. *)
Definition round (W : list Z) (t : nat) (v : vars) : vars :=
  let '(Vars a b c d e f g h) := v in
  let T1 := add32 (add32 (add32 (add32 h (e1 e)) (CH e f g)) (K !!! t)) (W !!! t) in
  let T2 := add32 (e0 a) (MAJ a b c) in
  let h := g in
  let g := f in
  let f := e in
  let e := add32 d T1 in
  let d := c in
  let c := b in
  let b := a in
  let a := add32 T1 T2 in
  Vars a b c d e f g h.

(** [for ( t = 0; t < 64; t++ )], [n] iterations from [t]. *)
Fixpoint rounds (n t : nat) (W : list Z) (v : vars) : vars :=
  match n with
  | O => v
  | S n' => rounds n' (S t) W (round W t v)
  end.

(** [a = H[ 0 ]; ...; h = H[ 7 ]]. *)
Definition load_vars (H : list Z) : vars :=
  Vars (H !!! 0%nat) (H !!! 1%nat) (H !!! 2%nat) (H !!! 3%nat)
       (H !!! 4%nat) (H !!! 5%nat) (H !!! 6%nat) (H !!! 7%nat).

(** [H[ 0 ] += a; ...; H[ 7 ] += h]. *)
Definition add_vars (H : list Z) (v : vars) : list Z :=
  let H := <[0%nat := add32 (H !!! 0%nat) (wv_a v)]> H in
  let H := <[1%nat := add32 (H !!! 1%nat) (wv_b v)]> H in
  let H := <[2%nat := add32 (H !!! 2%nat) (wv_c v)]> H in
  let H := <[3%nat := add32 (H !!! 3%nat) (wv_d v)]> H in
  let H := <[4%nat := add32 (H !!! 4%nat) (wv_e v)]> H in
  let H := <[5%nat := add32 (H !!! 5%nat) (wv_f v)]> H in
  let H := <[6%nat := add32 (H !!! 6%nat) (wv_g v)]> H in
  <[7%nat := add32 (H !!! 7%nat) (wv_h v)]> H.

(** Everything the loop body does to [H] once [M] is ready. *)
Definition process_block (H M : list Z) : list Z :=
  let W := schedule M in
  add_vars H (rounds 64 0 W (load_vars H)).

(** ** The loop over the blocks *)

(** [for ( i = 1; i <= N; i++ )], entered with the given [i], [data_pos]
    and [H], and unrolled at most [fuel] times: every unrolling tests the
    guard.  A call tests it [N + 1] times; with this fuel or more the loop
    leaves through the guard ([sha256_loop_fuel]). *)
Fixpoint sha256_loop (fuel : nat) (data : buffer) (len N i data_pos : Z)
    (H : list Z) : list Z :=
  match fuel with
  | O => H
  | S fuel' =>
      if i <=? N then
        let msgblk_len := copy_len len data_pos in
        let M := msgblk data len N i data_pos in
        let H := process_block H M in
        sha256_loop fuel' data len N (wrap64 (i + 1))
                    (wrap64 (data_pos + msgblk_len)) H
      else H
  end.

(** The final value of [H], before the byte swaps. *)
Definition sha256_hash (data : buffer) (len : Z) : list Z :=
  let N := block_count len in
  sha256_loop (S (Z.to_nat N)) data len N 1 0 H_init.

(** The four bytes of a [uint32_t] in memory, on a little-endian host. *)
Definition store32 (x : Z) : list Z :=
  [ x mod 2 ^ 8; shr x 8 mod 2 ^ 8; shr x 16 mod 2 ^ 8; shr x 24 mod 2 ^ 8 ].

(** [H[ k ] = BYTESWAP( H[ k ] )] for the eight words, then the 32 bytes
    that [memcpy( md, H, 32 )] copies. *)
Definition digest_bytes (H : list Z) : list Z :=
  flat_map store32 (map BYTESWAP H).

(** ** The call, with its static storage *)

(** The only object with static storage duration that the function
    writes is [static uint8_t md[ 32 ]]. *)
Record statics : Type := Statics { md : list Z }.

(** The values a [uint8_t *] returned by [sha256] can take. *)
Inductive pointer : Type :=
  | NULL
  | addr_md.

(** The return value is the only channel to the caller: the one value
    that could report an error is the null pointer. *)
Definition error_outcome (p : pointer) : Prop := p = NULL.

(** Reading 32 bytes through a pointer that [sha256] returned. *)
Definition read_digest (s : statics) (p : pointer) : option (list Z) :=
  match p with
  | NULL => None
  | addr_md => Some (md s)
  end.

Definition sha256 (data : buffer) (len : Z) (s : statics) : pointer * statics :=
  let H := sha256_hash data len in
  let s := {| md := memcpy (md s) (buffer_of_list (digest_bytes H)) 0 32 |} in
  (addr_md, s).

(** The [%02x] rendering of [print_hash], without the final newline. *)
Definition hex_digit (d : Z) : ascii :=
  ascii_of_N (Z.to_N (if d <? 10 then 48 + d else 87 + d)).

Fixpoint hex (l : list Z) : string :=
  match l with
  | [] => EmptyString
  | x :: l' => String (hex_digit (x / 16)) (String (hex_digit (x mod 16)) (hex l'))
  end.

(** ** The blocks that a call processes *)

(** The values of [i] and [data_pos] on entry to each of [n] successive
    iterations of the loop over the blocks. *)
Fixpoint sha256_iters (n : nat) (len i data_pos : Z) : list (Z * Z) :=
  match n with
  | O => []
  | S n' =>
      (i, data_pos)
      :: sha256_iters n' len (wrap64 (i + 1))
                      (wrap64 (data_pos + copy_len len data_pos))
  end.

Definition iterations (len : Z) : list (Z * Z) :=
  sha256_iters (Z.to_nat (block_count len)) len 1 0.

(** The block [M] of each iteration, in processing order. *)
Definition blocks (data : buffer) (len : Z) : list (list Z) :=
  (fun it => msgblk data len (block_count len) it.1 it.2) <$> iterations len.

(** The bytes of [M] before the byte swap, for each iteration. *)
Definition raw_blocks (data : buffer) (len : Z) : list (list Z) :=
  (fun it => msgblk_bytes data len (block_count len) it.1 it.2) <$> iterations len.

(** The four bytes of a big-endian 32-bit word, most significant first. *)
Definition be_bytes32 (x : Z) : list Z :=
  [ shr x 24 mod 2 ^ 8; shr x 16 mod 2 ^ 8; shr x 8 mod 2 ^ 8; x mod 2 ^ 8 ].

(** The 64 bytes of the 512-bit block that sixteen big-endian words stand for. *)
Definition block_bytes (M : list Z) : list Z := concat (be_bytes32 <$> M).

(** The padded message: the bytes of all the blocks, in processing order. *)
Definition padded_message (data : buffer) (len : Z) : list Z :=
  concat (block_bytes <$> blocks data len).

(** Whether each iteration stores the [0x80] byte. *)
Definition pad_flags (len : Z) : list bool :=
  (fun it => pad_cond len (block_count len) it.1 (copy_len len it.2))
  <$> iterations len.

(** The eight bytes of a big-endian 64-bit integer. *)
Definition be_bytes64 (x : Z) : list Z :=
  [ shr x 56 mod 2 ^ 8; shr x 48 mod 2 ^ 8; shr x 40 mod 2 ^ 8;
    shr x 32 mod 2 ^ 8; shr x 24 mod 2 ^ 8; shr x 16 mod 2 ^ 8;
    shr x 8 mod 2 ^ 8; x mod 2 ^ 8 ].

(** The static array [md] when the program starts. *)
Definition s_init : statics := {| md := replicate 32 0 |}.

(** ** The functions of the specification *)

(** These definitions follow the words of the specification (and of
    FIPS 180-4), not the source: rotation is stated with division and
    remainder, complement is the complement of the integer, and a sum is
    reduced modulo [2^32] once.  The theorems compare them with the macros
    and loops above. *)

Definition spec_rotr (x n : Z) : Z := x / 2 ^ n + (x mod 2 ^ n) * 2 ^ (32 - n).

Definition spec_sigma0 (x : Z) : Z :=
  Z.lxor (Z.lxor (spec_rotr x 7) (spec_rotr x 18)) (Z.shiftr x 3).
Definition spec_sigma1 (x : Z) : Z :=
  Z.lxor (Z.lxor (spec_rotr x 17) (spec_rotr x 19)) (Z.shiftr x 10).
Definition spec_Sigma0 (x : Z) : Z :=
  Z.lxor (Z.lxor (spec_rotr x 2) (spec_rotr x 13)) (spec_rotr x 22).
Definition spec_Sigma1 (x : Z) : Z :=
  Z.lxor (Z.lxor (spec_rotr x 6) (spec_rotr x 11)) (spec_rotr x 25).
Definition spec_Ch (x y z : Z) : Z :=
  Z.lxor (Z.land x y) (Z.land (Z.lnot x) z).
Definition spec_Maj (x y z : Z) : Z :=
  Z.lxor (Z.lxor (Z.land x y) (Z.land x z)) (Z.land y z).

(** One round of the compression, as the specification writes it. *)
Definition spec_round (W : list Z) (t : nat) (v : vars) : vars :=
  let T1 := (wv_h v + spec_Sigma1 (wv_e v)
             + spec_Ch (wv_e v) (wv_f v) (wv_g v)
             + K !!! t + W !!! t) mod 2 ^ 32 in
  let T2 := (spec_Sigma0 (wv_a v)
             + spec_Maj (wv_a v) (wv_b v) (wv_c v)) mod 2 ^ 32 in
  {| wv_h := wv_g v; wv_g := wv_f v; wv_f := wv_e v;
     wv_e := (wv_d v + T1) mod 2 ^ 32;
     wv_d := wv_c v; wv_c := wv_b v; wv_b := wv_a v;
     wv_a := (T1 + T2) mod 2 ^ 32 |}.

(** Rounds [0] to [63] in turn, then the sums with the hash state. *)
Definition spec_compress (H W : list Z) : list Z :=
  let v := fold_left (fun v t => spec_round W t v) (seq 0 64) (load_vars H) in
  [ (H !!! 0%nat + wv_a v) mod 2 ^ 32; (H !!! 1%nat + wv_b v) mod 2 ^ 32;
    (H !!! 2%nat + wv_c v) mod 2 ^ 32; (H !!! 3%nat + wv_d v) mod 2 ^ 32;
    (H !!! 4%nat + wv_e v) mod 2 ^ 32; (H !!! 5%nat + wv_f v) mod 2 ^ 32;
    (H !!! 6%nat + wv_g v) mod 2 ^ 32; (H !!! 7%nat + wv_h v) mod 2 ^ 32 ].

Definition vars_u32 (v : vars) : Prop :=
  is_u32 (wv_a v) /\ is_u32 (wv_b v) /\ is_u32 (wv_c v) /\ is_u32 (wv_d v) /\
  is_u32 (wv_e v) /\ is_u32 (wv_f v) /\ is_u32 (wv_g v) /\ is_u32 (wv_h v).

(** ** The output routines and the driver *)

Definition newline : string := String (ascii_of_N 10) EmptyString.

(** [print_hash]: what it writes to the standard output, the 32 bytes at
    [hash] through [%02x] and a newline. *)
Definition print_hash (hash : buffer) : string :=
  String.append (hex (hash <$> seqZ 0 32)) newline.

(** One byte through [%.2x], and the space printed after it. *)
Definition hex_sp (x : Z) : string :=
  String (hex_digit (x / 16)) (String (hex_digit (x mod 16)) (String " " EmptyString)).

(** The body of the loop of [print_message_block]: the four bytes from
    [m[ i ]] on, the last one first, and a newline. *)
Definition print_message_row (m : buffer) (i : Z) : string :=
  String.append (hex_sp (m (i + 3)))
    (String.append (hex_sp (m (i + 2)))
       (String.append (hex_sp (m (i + 1)))
          (String.append (hex_sp (m i)) newline))).

(** [for ( i = 0; i < 64; i += 4 )], unrolled at most [fuel] times. *)
Fixpoint print_message_rows (fuel : nat) (m : buffer) (i : Z) : string :=
  match fuel with
  | O => EmptyString
  | S fuel' =>
      if i <? 64
      then String.append (print_message_row m i)
                         (print_message_rows fuel' m (wrap64 (i + 4)))
      else EmptyString
  end.

(** [print_message_block]: what it writes to the standard output. *)
Definition print_message_block (m : buffer) : string :=
  print_message_rows 17 m 0.

(** Bytes printed as a row of [print_message_block] prints them. *)
Definition hex_sp_line (bs : list Z) : string :=
  fold_right (fun b acc => String.append (hex_sp b) acc) newline bs.

(** [main]: what it writes to the standard output ([None] if [print_hash]
    were handed a null pointer) and the value it returns. *)
Definition main (s : statics) : option string * Z :=
  let msg_len := 1000 in
  let msg := buffer_of_list (replicate (Z.to_nat msg_len) 0x61) in
  let '(hsh, s) := sha256 msg msg_len s in
  ((fun d => print_hash (buffer_of_list d)) <$> read_digest s hsh, 0).

(** ** Notions used to state further properties *)

(** The bytes that the calls of [memcpy] read during a call of [sha256],
    in the order in which they are read. *)
Definition copied_bytes (data : buffer) (len : Z) : list Z :=
  concat ((fun it => data <$> seqZ it.2 (copy_len len it.2)) <$> iterations len).

(** The 32-bit words that a byte string stands for, four bytes a word,
    most significant byte first. *)
Fixpoint be_words (bs : list Z) : list Z :=
  match bs with
  | b0 :: b1 :: b2 :: b3 :: bs' => le32 b3 b2 b1 b0 :: be_words bs'
  | _ => []
  end.

(** The first [k] runs of [n] elements of a list. *)
Fixpoint chunks (n k : nat) (l : list Z) : list (list Z) :=
  match k with
  | O => []
  | S k' => take n l :: chunks n k' (drop n l)
  end.

(** Reading back two hexadecimal digits a byte. *)
Definition unhex_digit (c : ascii) : Z :=
  let n := Z.of_N (N_of_ascii c) in
  if n <? 58 then n - 48 else n - 87.

Fixpoint unhex (s : string) : list Z :=
  match s with
  | String c1 (String c2 s') => (16 * unhex_digit c1 + unhex_digit c2) :: unhex s'
  | _ => []
  end.

Definition is_hex_digit (c : ascii) : bool :=
  let n := Z.of_N (N_of_ascii c) in
  ((48 <=? n) && (n <=? 57)) || ((97 <=? n) && (n <=? 102)).

Fixpoint string_forallb (f : ascii -> bool) (s : string) : bool :=
  match s with
  | EmptyString => true
  | String c s' => f c && string_forallb f s'
  end.

(** Primality by trial division, and the primes below a bound in
    increasing order. *)
Definition is_prime (p : Z) : bool :=
  (1 <? p) && forallb (fun d => negb (p mod d =? 0)) (seqZ 2 (p - 2)).

Definition primes_below (m : Z) : list Z :=
  List.filter is_prime (seqZ 2 (m - 2)).

(** [c] is the first 32 bits of the fractional part of the [k]-th root of
    [p]: with [r] the integer part of the root, [r * 2^32 + c] is the
    integer part of [2^32] times the root. *)
Definition frac_root_bits (k p c : Z) : Prop :=
  0 <= c < 2 ^ 32
  /\ exists r, 0 <= r
     /\ (r * 2 ^ 32 + c) ^ k <= p * 2 ^ (32 * k) < (r * 2 ^ 32 + c + 1) ^ k.

Definition frac_root_bits_b (k p c : Z) : bool :=
  (0 <=? c) && (c <? 2 ^ 32)
  && existsb (fun r => ((r * 2 ^ 32 + c) ^ k <=? p * 2 ^ (32 * k))
                       && (p * 2 ^ (32 * k) <? (r * 2 ^ 32 + c + 1) ^ k))
             (seqZ 0 32).

(** The majority of three bits. *)
Definition majb (a b c : bool) : bool := (a && b) || (a && c) || (b && c).

(** * Properties *)

(** ** Tactics *)

(** Linear arithmetic with divisions and remainders by constants. *)
Ltac divlia := Z.div_mod_to_equations; lia.

(** Case analysis on the comparisons of a boolean condition. *)
Ltac zbool :=
  repeat match goal with
    | |- context [?a >=? ?b] => destruct (Z.geb_spec a b)
    | |- context [?a <? ?b] => destruct (Z.ltb_spec a b)
    | |- context [?a =? ?b] => destruct (Z.eqb_spec a b)
    end;
  cbn [andb orb negb]; try reflexivity; try (exfalso; divlia).

(** Equalities between bit-level expressions, bit by bit. *)
Ltac bits :=
  Z.bitblast;
  repeat match goal with
    | |- context [Z.testbit ?a ?n] => rewrite (Z.testbit_neg_r a n) by lia
    end;
  try Z.bitblast_core.

Ltac unfold_bits :=
  unfold be_bytes64, be_bytes32, store32, le32, BYTESWAP, ROTR, ROTL,
    shl32, shr, wrap32, wrap64;
  change 0xff00ff00 with (Z.lor (Z.shiftl (Z.ones 8) 8) (Z.shiftl (Z.ones 8) 24));
  change 0x00ff00ff with (Z.lor (Z.ones 8) (Z.shiftl (Z.ones 8) 16));
  change (32 - 8) with 24.

Ltac as_u8 b H := rewrite <- (Z.mod_small b (2 ^ 8)) by (unfold is_u8 in H; lia).

(** ** Ranges *)

Lemma wrap32_range x : is_u32 (wrap32 x).
Proof. unfold is_u32, wrap32. apply Z.mod_pos_bound. lia. Qed.

Lemma wrap64_range x : is_size_t (wrap64 x).
Proof. unfold is_size_t, wrap64. apply Z.mod_pos_bound. lia. Qed.

Lemma wrap32_small x : is_u32 x -> wrap32 x = x.
Proof. unfold is_u32, wrap32. intros. apply Z.mod_small. lia. Qed.

Lemma wrap64_small x : is_size_t x -> wrap64 x = x.
Proof. unfold is_size_t, wrap64. intros. apply Z.mod_small. lia. Qed.

(** ** The loop over the blocks *)

Lemma block_count_nowrap len :
  is_size_t len ->
  block_count len = len / 64 + 1 + (if len mod 64 >=? 56 then 1 else 0).
Proof.
  unfold is_size_t, block_count. intros Hlen.
  assert (0 <= len / 64 < 2 ^ 58).
  { split; [apply Z.div_pos; lia | apply Z.div_lt_upper_bound; lia]. }
  rewrite (wrap64_small (len / 64 + 1)) by (unfold is_size_t; lia).
  apply wrap64_small. unfold is_size_t. destruct (len mod 64 >=? 56); lia.
Qed.

Lemma copy_len_min len data_pos :
  is_size_t len -> 0 <= data_pos <= len ->
  copy_len len data_pos = Z.min (len - data_pos) 64.
Proof.
  unfold is_size_t, copy_len, MIN. intros Hlen Hpos.
  rewrite wrap64_small by (unfold is_size_t; lia).
  destruct (Z.ltb_spec (len - data_pos) 64); lia.
Qed.

(** On entry to the iteration with index [i], [data_pos] is [64 * (i - 1)],
    capped by [len]. *)
Lemma sha256_iters_closed len n : forall i,
  is_size_t len -> 1 <= i -> i + Z.of_nat n < 2 ^ 64 ->
  sha256_iters n len i (Z.min (64 * (i - 1)) len)
  = (fun k => (k, Z.min (64 * (k - 1)) len)) <$> seqZ i (Z.of_nat n).
Proof.
  induction n as [|n IH]; intros i Hlen Hi Hn; [reflexivity|].
  rewrite seqZ_cons by lia. cbn [sha256_iters fmap list_fmap]. f_equal.
  rewrite copy_len_min by (unfold is_size_t in *; lia).
  rewrite !wrap64_small by (unfold is_size_t in *; lia).
  replace (Z.min (64 * (i - 1)) len + Z.min (len - Z.min (64 * (i - 1)) len) 64)
    with (Z.min (64 * (i + 1 - 1)) len) by lia.
  rewrite IH by (trivial; lia). do 2 f_equal; lia.
Qed.

Lemma iterations_closed len :
  is_size_t len ->
  iterations len
  = (fun k => (k, Z.min (64 * (k - 1)) len)) <$> seqZ 1 (block_count len).
Proof.
  intros Hlen. unfold iterations.
  pose proof (block_count_nowrap len Hlen) as HN.
  assert (0 <= len / 64 < 2 ^ 58).
  { unfold is_size_t in Hlen.
    split; [apply Z.div_pos; lia | apply Z.div_lt_upper_bound; lia]. }
  assert (0 < block_count len < 2 ^ 59) by (destruct (len mod 64 >=? 56); lia).
  pose proof (sha256_iters_closed len (Z.to_nat (block_count len)) 1 Hlen) as E.
  replace (Z.min (64 * (1 - 1)) len) with 0 in E
    by (unfold is_size_t in Hlen; lia).
  rewrite E by (rewrite ?Z2Nat.id; lia).
  rewrite Z2Nat.id by lia. reflexivity.
Qed.

Lemma length_process_block H M : length (process_block H M) = length H.
Proof. unfold process_block, add_vars. by rewrite !length_insert. Qed.

Lemma length_fold_process_block Ms : forall H,
  length (fold_left process_block Ms H) = length H.
Proof.
  induction Ms as [|M Ms IH]; intros H; [reflexivity|].
  cbn [fold_left]. by rewrite IH, length_process_block.
Qed.

Lemma length_sha256_loop data len N fuel : forall i data_pos H,
  length (sha256_loop fuel data len N i data_pos H) = length H.
Proof.
  induction fuel as [|fuel IH]; intros i data_pos H; [reflexivity|].
  cbn [sha256_loop]. destruct (i <=? N); [|reflexivity].
  by rewrite IH, length_process_block.
Qed.

Lemma length_sha256_hash data len : length (sha256_hash data len) = 8%nat.
Proof. unfold sha256_hash. by rewrite length_sha256_loop. Qed.

(** Entered with index [i], the loop runs the [n = N + 1 - i] iterations
    with indices [i .. N] and then leaves through its guard, however much
    fuel is left. *)
Lemma sha256_loop_run data len n : forall i k H,
  is_size_t len -> 1 <= i -> i + Z.of_nat n = block_count len + 1 ->
  sha256_loop (S n + k) data len (block_count len) i
              (Z.min (64 * (i - 1)) len) H
  = fold_left process_block
      ((fun it => msgblk data len (block_count len) it.1 it.2)
       <$> sha256_iters n len i (Z.min (64 * (i - 1)) len)) H.
Proof.
  induction n as [|n IH]; intros i k H Hlen Hi Hn.
  - cbn [Nat.add sha256_loop sha256_iters fmap list_fmap fold_left].
    destruct (Z.leb_spec i (block_count len)); [lia | reflexivity].
  - assert (block_count len < 2 ^ 59).
    { rewrite block_count_nowrap by assumption. unfold is_size_t in Hlen.
      destruct (len mod 64 >=? 56); divlia. }
    change (S (S n) + k)%nat with (S (S n + k)).
    cbn [sha256_loop sha256_iters fmap list_fmap fold_left fst snd].
    destruct (Z.leb_spec i (block_count len)); [|lia].
    rewrite copy_len_min by (unfold is_size_t in *; lia).
    rewrite !wrap64_small by (unfold is_size_t in *; lia).
    replace (Z.min (64 * (i - 1)) len
             + Z.min (len - Z.min (64 * (i - 1)) len) 64)
      with (Z.min (64 * (i + 1 - 1)) len) by lia.
    apply IH; [assumption | lia..].
Qed.

(** The hash is the fold of the block function over the processed blocks. *)
Lemma sha256_hash_blocks data len :
  is_size_t len ->
  sha256_hash data len = fold_left process_block (blocks data len) H_init.
Proof.
  intros Hlen. unfold sha256_hash, blocks, iterations.
  pose proof (block_count_nowrap len Hlen) as HN.
  assert (0 <= len / 64) by (unfold is_size_t in Hlen; divlia).
  assert (0 < block_count len) by (destruct (len mod 64 >=? 56); lia).
  pose proof (sha256_loop_run data len (Z.to_nat (block_count len)) 1 0%nat
                H_init Hlen) as E.
  replace (Z.min (64 * (1 - 1)) len) with 0 in E
    by (unfold is_size_t in Hlen; lia).
  rewrite Nat.add_0_r in E. apply E; lia.
Qed.

(** More fuel than the [N + 1] tests of the guard changes nothing. *)
Lemma sha256_loop_fuel data len k :
  is_size_t len ->
  sha256_loop (S (Z.to_nat (block_count len)) + k) data len (block_count len)
              1 0 H_init
  = sha256_hash data len.
Proof.
  intros Hlen. rewrite sha256_hash_blocks by assumption.
  unfold blocks, iterations.
  pose proof (block_count_nowrap len Hlen) as HN.
  assert (0 <= len / 64) by (unfold is_size_t in Hlen; divlia).
  assert (0 < block_count len) by (destruct (len mod 64 >=? 56); lia).
  pose proof (sha256_loop_run data len (Z.to_nat (block_count len)) 1 k
                H_init Hlen) as E.
  replace (Z.min (64 * (1 - 1)) len) with 0 in E
    by (unfold is_size_t in Hlen; lia).
  apply E; lia.
Qed.

Lemma length_digest_bytes H : length (digest_bytes H) = (4 * length H)%nat.
Proof.
  unfold digest_bytes. induction H as [|x H IH]; [reflexivity|].
  cbn [map flat_map store32 app length] in *. lia.
Qed.

(** ** memcpy *)

Lemma memcpy_spec src n : forall dst pos,
  (n <= length dst)%nat ->
  memcpy dst src pos n = (src <$> seqZ pos (Z.of_nat n)) ++ drop n dst.
Proof.
  induction n as [|n IH]; intros dst pos Hn.
  - by destruct dst.
  - destruct dst as [|x dst]; cbn [length] in Hn; [lia|].
    rewrite seqZ_cons by lia. cbn [memcpy fmap list_fmap app drop].
    rewrite IH by lia.
    replace (Z.pred (Z.of_nat (S n))) with (Z.of_nat n) by lia.
    reflexivity.
Qed.

Lemma length_memcpy src n : forall dst pos,
  length (memcpy dst src pos n) = length dst.
Proof.
  induction n as [|n IH]; intros [|x dst] pos; cbn [memcpy length]; auto.
Qed.

Lemma buffer_of_list_seqZ (l : list Z) :
  buffer_of_list l <$> seqZ 0 (Z.of_nat (length l)) = l.
Proof.
  apply list_eq. intros k. rewrite list_lookup_fmap.
  destruct (decide (k < length l)%nat) as [Hk|Hk].
  - rewrite lookup_seqZ_lt by lia. cbn. unfold buffer_of_list.
    rewrite Z.add_0_l, Nat2Z.id. symmetry. by apply list_lookup_lookup_total_lt.
  - rewrite lookup_seqZ_ge by lia. cbn. symmetry. apply lookup_ge_None. lia.
Qed.

(** What a call returns and leaves in [md]. *)
Lemma sha256_eq data len s :
  length (md s) = 32%nat ->
  sha256 data len s
  = (addr_md, {| md := digest_bytes (sha256_hash data len) |}).
Proof.
  intros Hs. unfold sha256. do 2 f_equal.
  assert (length (digest_bytes (sha256_hash data len)) = 32%nat) as HD
    by (rewrite length_digest_bytes, length_sha256_hash; reflexivity).
  rewrite memcpy_spec by lia.
  rewrite drop_ge by lia. rewrite app_nil_r.
  rewrite <- HD.
  apply buffer_of_list_seqZ.
Qed.

(** ** The bytes of a block *)

Lemma msgblk_bytes_memcpy data len N i data_pos :
  msgblk_bytes data len N i data_pos
  = let msgblk_len := copy_len len data_pos in
    let M := memcpy (replicate 64 0) data data_pos (Z.to_nat msgblk_len) in
    if pad_cond len N i msgblk_len then <[Z.to_nat msgblk_len := 0x80]> M else M.
Proof.
  unfold msgblk_bytes. cbv zeta.
  destruct (Z.ltb_spec 0 (copy_len len data_pos)) as [Hn|Hn]; [reflexivity|].
  replace (Z.to_nat (copy_len len data_pos)) with 0%nat by lia. reflexivity.
Qed.

(** A block that does not get the marker: the copied bytes, then zeros. *)
Lemma msgblk_bytes_nopad data len N i data_pos :
  is_size_t len -> 0 <= data_pos <= len ->
  pad_cond len N i (Z.min (len - data_pos) 64) = false ->
  msgblk_bytes data len N i data_pos
  = (data <$> seqZ data_pos (Z.min (len - data_pos) 64))
    ++ replicate (Z.to_nat (64 - Z.min (len - data_pos) 64)) 0.
Proof.
  intros Hlen Hpos Hpad. rewrite msgblk_bytes_memcpy. cbv zeta.
  rewrite copy_len_min by assumption. rewrite Hpad.
  rewrite memcpy_spec by (rewrite length_replicate; lia).
  rewrite drop_replicate, Z2Nat.id by lia.
  do 2 f_equal. lia.
Qed.

(** The block that gets the marker: the copied bytes, [0x80], then zeros. *)
Lemma msgblk_bytes_pad data len N i data_pos :
  is_size_t len -> 0 <= data_pos <= len ->
  pad_cond len N i (Z.min (len - data_pos) 64) = true ->
  len - data_pos < 64 ->
  msgblk_bytes data len N i data_pos
  = (data <$> seqZ data_pos (len - data_pos))
    ++ 0x80 :: replicate (Z.to_nat (63 - (len - data_pos))) 0.
Proof.
  intros Hlen Hpos Hpad Hlt. rewrite msgblk_bytes_memcpy. cbv zeta.
  rewrite copy_len_min by assumption. rewrite Hpad.
  replace (Z.min (len - data_pos) 64) with (len - data_pos) by lia.
  rewrite memcpy_spec by (rewrite length_replicate; lia).
  rewrite drop_replicate, Z2Nat.id by lia.
  rewrite insert_app_r_alt by (rewrite length_fmap, length_seqZ; lia).
  rewrite length_fmap, length_seqZ, Nat.sub_diag.
  rewrite insert_replicate_lt by lia.
  cbn [replicate app]. do 3 f_equal. lia.
Qed.

Lemma length_msgblk_bytes data len N i data_pos :
  length (msgblk_bytes data len N i data_pos) = 64%nat.
Proof.
  rewrite msgblk_bytes_memcpy. cbv zeta.
  destruct (pad_cond _ _ _ _);
    rewrite ?length_insert, length_memcpy; apply length_replicate.
Qed.

(** ** The iterations of a call *)

(** The three kinds of iterations: the [len / 64] blocks filled with data,
    the block that holds the last [len mod 64] bytes of data, and the
    extra block when these are 56 or more. *)
Lemma iterations_split len :
  is_size_t len ->
  iterations len
  = ((fun k => (k + 1, 64 * k)) <$> seqZ 0 (len / 64))
    ++ [(len / 64 + 1, 64 * (len / 64))]
    ++ (if len mod 64 >=? 56 then [(len / 64 + 2, len)] else []).
Proof.
  intros Hlen. rewrite iterations_closed, block_count_nowrap by assumption.
  unfold is_size_t in Hlen.
  assert (0 <= len / 64) by (apply Z.div_pos; lia).
  rewrite <- Z.add_assoc.
  rewrite seqZ_app, fmap_app by (destruct (len mod 64 >=? 56); lia).
  f_equal.
  - rewrite <- (fmap_add_seqZ 1 0), <- list_fmap_compose.
    apply list_fmap_ext. intros j k Hk. apply lookup_seqZ in Hk. cbn.
    f_equal; [lia | divlia].
  - rewrite seqZ_cons by (destruct (len mod 64 >=? 56); lia).
    cbn [fmap list_fmap app].
    f_equal; [f_equal; divlia|].
    destruct (Z.geb_spec (len mod 64) 56) as [Hr|Hr].
    + rewrite seqZ_cons, seqZ_nil by lia. cbn. do 2 f_equal; divlia.
    + rewrite seqZ_nil by lia. reflexivity.
Qed.

Lemma pad_cond_full len k :
  is_size_t len -> 0 <= k < len / 64 ->
  pad_cond len (block_count len) (k + 1) (Z.min (len - 64 * k) 64) = false.
Proof.
  intros Hlen Hk. rewrite block_count_nowrap by assumption.
  unfold is_size_t in Hlen. unfold pad_cond. zbool.
Qed.

Lemma pad_cond_partial len :
  is_size_t len ->
  pad_cond len (block_count len) (len / 64 + 1)
           (Z.min (len - 64 * (len / 64)) 64) = true.
Proof.
  intros Hlen. rewrite block_count_nowrap by assumption.
  unfold is_size_t in Hlen. unfold pad_cond. zbool.
Qed.

Lemma pad_cond_extra len :
  is_size_t len -> len mod 64 >= 56 ->
  pad_cond len (block_count len) (len / 64 + 2) (Z.min (len - len) 64) = false.
Proof.
  intros Hlen Hr. rewrite block_count_nowrap by assumption.
  unfold is_size_t in Hlen. unfold pad_cond. zbool.
Qed.

Lemma pad_flags_closed len :
  is_size_t len ->
  pad_flags len
  = replicate (Z.to_nat (len / 64)) false
    ++ [true] ++ (if len mod 64 >=? 56 then [false] else []).
Proof.
  intros Hlen. unfold pad_flags. rewrite iterations_split by assumption.
  pose proof Hlen as Hlen'. unfold is_size_t in Hlen'.
  rewrite !fmap_app. f_equal; [|f_equal].
  - rewrite <- list_fmap_compose.
    apply list_eq. intros j. rewrite list_lookup_fmap.
    destruct (decide (Z.of_nat j < len / 64)) as [Hj|Hj].
    + rewrite lookup_seqZ_lt, lookup_replicate_2 by lia. cbn. f_equal.
      rewrite copy_len_min by (trivial; divlia).
      apply pad_cond_full; [assumption | lia].
    + rewrite lookup_seqZ_ge by lia. symmetry. apply lookup_replicate_None. lia.
  - cbn. f_equal. rewrite copy_len_min by (trivial; divlia).
    by apply pad_cond_partial.
  - destruct (Z.geb_spec (len mod 64) 56) as [Hr|Hr]; [|reflexivity].
    cbn. f_equal. rewrite copy_len_min by (trivial; lia).
    apply pad_cond_extra; [assumption | lia].
Qed.

(** The bytes of [M] in each of the three kinds of iterations. *)
Lemma msgblk_bytes_full data len k :
  is_size_t len -> 0 <= k < len / 64 ->
  msgblk_bytes data len (block_count len) (k + 1) (64 * k)
  = data <$> seqZ (64 * k) 64.
Proof.
  intros Hlen Hk. pose proof Hlen as Hlen'. unfold is_size_t in Hlen'.
  rewrite msgblk_bytes_nopad
    by (trivial; try apply pad_cond_full; trivial; divlia).
  replace (Z.min (len - 64 * k) 64) with 64 by divlia.
  cbn. apply app_nil_r.
Qed.

Lemma msgblk_bytes_partial data len :
  is_size_t len ->
  msgblk_bytes data len (block_count len) (len / 64 + 1) (64 * (len / 64))
  = (data <$> seqZ (64 * (len / 64)) (len mod 64))
    ++ 0x80 :: replicate (Z.to_nat (63 - len mod 64)) 0.
Proof.
  intros Hlen. pose proof Hlen as Hlen'. unfold is_size_t in Hlen'.
  rewrite msgblk_bytes_pad
    by (trivial; try apply pad_cond_partial; trivial; divlia).
  do 3 f_equal; try f_equal; divlia.
Qed.

Lemma msgblk_bytes_extra data len :
  is_size_t len -> len mod 64 >= 56 ->
  msgblk_bytes data len (block_count len) (len / 64 + 2) len = replicate 64 0.
Proof.
  intros Hlen Hr. pose proof Hlen as Hlen'. unfold is_size_t in Hlen'.
  rewrite msgblk_bytes_nopad
    by (trivial; try apply pad_cond_extra; trivial; lia).
  rewrite Z.sub_diag. reflexivity.
Qed.

(** The bytes of [M] in every iteration: [len / 64] blocks of data, the
    block with the last [len mod 64] bytes of data and the marker, and a
    block of zeros when [len mod 64 >= 56]. *)
Lemma raw_blocks_closed data len :
  is_size_t len ->
  raw_blocks data len
  = ((fun k => data <$> seqZ (64 * k) 64) <$> seqZ 0 (len / 64))
    ++ [(data <$> seqZ (64 * (len / 64)) (len mod 64))
        ++ 0x80 :: replicate (Z.to_nat (63 - len mod 64)) 0]
    ++ (if len mod 64 >=? 56 then [replicate 64 0] else []).
Proof.
  intros Hlen. unfold raw_blocks. rewrite iterations_split by assumption.
  rewrite !fmap_app. f_equal; [|f_equal].
  - rewrite <- list_fmap_compose.
    apply list_fmap_ext. intros j k Hk. apply lookup_seqZ in Hk. cbn.
    apply msgblk_bytes_full; [assumption | lia].
  - cbn. f_equal. by apply msgblk_bytes_partial.
  - destruct (Z.geb_spec (len mod 64) 56) as [Hr|Hr]; [|reflexivity].
    cbn. f_equal. apply msgblk_bytes_extra; [assumption | lia].
Qed.

(** The words of [M] in every iteration. *)
Lemma blocks_closed data len :
  is_size_t len ->
  blocks data len
  = ((fun k => msgblk_words (data <$> seqZ (64 * k) 64)) <$> seqZ 0 (len / 64))
    ++ (let last_data :=
          (data <$> seqZ (64 * (len / 64)) (len mod 64))
          ++ 0x80 :: replicate (Z.to_nat (63 - len mod 64)) 0 in
        if len mod 64 >=? 56
        then [msgblk_words last_data;
              set_bitlen len (msgblk_words (replicate 64 0))]
        else [set_bitlen len (msgblk_words last_data)]).
Proof.
  intros Hlen. unfold blocks. rewrite iterations_split by assumption.
  pose proof (block_count_nowrap len Hlen) as HN.
  rewrite !fmap_app. f_equal.
  - rewrite <- list_fmap_compose.
    apply list_fmap_ext. intros j k Hk. apply lookup_seqZ in Hk. cbn.
    unfold msgblk. rewrite msgblk_bytes_full by (trivial; lia).
    rewrite HN. destruct (len mod 64 >=? 56); zbool.
  - cbn. unfold msgblk.
    rewrite msgblk_bytes_partial by assumption.
    destruct (Z.geb_spec (len mod 64) 56) as [Hr|Hr].
    + cbn. rewrite msgblk_bytes_extra by (trivial; lia).
      rewrite HN. destruct (Z.geb_spec (len mod 64) 56); [|lia]. zbool.
    + cbn. rewrite HN. destruct (Z.geb_spec (len mod 64) 56); [lia|]. zbool.
Qed.

(** ** Bytes and words *)

Lemma ROTR8_le32 b0 b1 b2 b3 :
  is_u8 b0 -> is_u8 b1 -> is_u8 b2 -> is_u8 b3 ->
  ROTR (le32 b0 b1 b2 b3) 8 = le32 b1 b2 b3 b0.
Proof.
  intros H0 H1 H2 H3. as_u8 b0 H0. as_u8 b1 H1. as_u8 b2 H2. as_u8 b3 H3.
  unfold_bits. bits.
Qed.

Lemma ROTL8_le32 b0 b1 b2 b3 :
  is_u8 b0 -> is_u8 b1 -> is_u8 b2 -> is_u8 b3 ->
  ROTL (le32 b0 b1 b2 b3) 8 = le32 b3 b0 b1 b2.
Proof.
  intros H0 H1 H2 H3. as_u8 b0 H0. as_u8 b1 H1. as_u8 b2 H2. as_u8 b3 H3.
  unfold_bits. bits.
Qed.

Lemma mask_le32 b0 b1 b2 b3 c0 c1 c2 c3 :
  is_u8 b0 -> is_u8 b1 -> is_u8 b2 -> is_u8 b3 ->
  is_u8 c0 -> is_u8 c1 -> is_u8 c2 -> is_u8 c3 ->
  Z.lor (Z.land (le32 b0 b1 b2 b3) 0xff00ff00)
        (Z.land (le32 c0 c1 c2 c3) 0x00ff00ff)
  = le32 c0 b1 c2 b3.
Proof.
  intros H0 H1 H2 H3 G0 G1 G2 G3.
  as_u8 b0 H0. as_u8 b1 H1. as_u8 b2 H2. as_u8 b3 H3.
  as_u8 c0 G0. as_u8 c1 G1. as_u8 c2 G2. as_u8 c3 G3.
  unfold_bits. bits.
Qed.

(** The byte swap turns the little-endian reading of four bytes into
    their big-endian reading. *)
Lemma BYTESWAP_le32 b0 b1 b2 b3 :
  is_u8 b0 -> is_u8 b1 -> is_u8 b2 -> is_u8 b3 ->
  BYTESWAP (le32 b0 b1 b2 b3) = le32 b3 b2 b1 b0.
Proof.
  intros H0 H1 H2 H3. unfold BYTESWAP.
  rewrite ROTR8_le32, ROTL8_le32 by assumption.
  by apply mask_le32.
Qed.

Lemma be_bytes32_le32 b0 b1 b2 b3 :
  is_u8 b0 -> is_u8 b1 -> is_u8 b2 -> is_u8 b3 ->
  be_bytes32 (le32 b3 b2 b1 b0) = [b0; b1; b2; b3].
Proof.
  intros H0 H1 H2 H3. as_u8 b0 H0. as_u8 b1 H1. as_u8 b2 H2. as_u8 b3 H3.
  unfold_bits. f_equal; [|f_equal; [|f_equal; [|f_equal]]]; bits.
Qed.

Lemma be_bytes64_words x :
  be_bytes32 (wrap32 (shr x 32)) ++ be_bytes32 (wrap32 x) = be_bytes64 x.
Proof.
  unfold_bits. cbn [app].
  repeat (f_equal; [bits|]). f_equal. bits.
Qed.

Lemma length_block_bytes M : length (block_bytes M) = (4 * length M)%nat.
Proof.
  unfold block_bytes. induction M as [|x M IH]; [reflexivity|].
  cbn [fmap list_fmap concat be_bytes32 app length] in *. lia.
Qed.

Lemma length_msgblk_words b : length (msgblk_words b) = 16%nat.
Proof. reflexivity. Qed.

Lemma length_set_bitlen len M : length (set_bitlen len M) = length M.
Proof. unfold set_bitlen. by rewrite !length_insert. Qed.

Lemma length_msgblk data len N i data_pos :
  length (msgblk data len N i data_pos) = 16%nat.
Proof.
  unfold msgblk. destruct (i =? N); rewrite ?length_set_bitlen; reflexivity.
Qed.

(** Reading a block of bytes as words, swapping them, and writing the
    words out in big-endian order gives the bytes back. *)
Lemma block_bytes_words_from n : forall (pre b : list Z) (m : nat),
  length pre = (4 * m)%nat -> length b = (4 * n)%nat -> Forall is_u8 b ->
  concat (be_bytes32 <$> ((fun w => BYTESWAP (load32 (pre ++ b) w)) <$> seq m n))
  = b.
Proof.
  induction n as [|n IH]; intros pre b m Hpre Hb Hu8.
  - destruct b; [reflexivity | cbn in Hb; lia].
  - destruct b as [|b0 [|b1 [|b2 [|b3 b]]]]; cbn [length] in Hb; try lia.
    apply Forall_cons in Hu8 as [H0 Hu8]. apply Forall_cons in Hu8 as [H1 Hu8].
    apply Forall_cons in Hu8 as [H2 Hu8]. apply Forall_cons in Hu8 as [H3 Hu8].
    cbn [seq fmap list_fmap concat].
    assert (load32 (pre ++ b0 :: b1 :: b2 :: b3 :: b) m = le32 b0 b1 b2 b3) as ->.
    { unfold load32. rewrite !lookup_total_app_r by lia.
      replace (4 * m - length pre)%nat with 0%nat by lia.
      replace (4 * m + 1 - length pre)%nat with 1%nat by lia.
      replace (4 * m + 2 - length pre)%nat with 2%nat by lia.
      replace (4 * m + 3 - length pre)%nat with 3%nat by lia.
      reflexivity. }
    rewrite BYTESWAP_le32, be_bytes32_le32 by assumption.
    cbn [app]. do 4 f_equal.
    replace (pre ++ b0 :: b1 :: b2 :: b3 :: b)
      with ((pre ++ [b0; b1; b2; b3]) ++ b) by (by rewrite <- app_assoc).
    apply IH; [rewrite length_app; cbn [length]; lia | lia | assumption].
Qed.

Lemma block_bytes_msgblk_words b :
  length b = 64%nat -> Forall is_u8 b -> block_bytes (msgblk_words b) = b.
Proof.
  intros Hb Hu8. apply (block_bytes_words_from 16 [] b 0); auto.
Qed.

(** Overwriting words 14 and 15 replaces the last eight bytes of the block
    by the big-endian bit length. *)
Lemma block_bytes_set_bitlen len M :
  length M = 16%nat ->
  block_bytes (set_bitlen len M)
  = take 56 (block_bytes M) ++ be_bytes64 (wrap64 (len * 8)).
Proof.
  intros HM. rewrite <- be_bytes64_words.
  do 16 (destruct M as [|? M]; [discriminate HM|]).
  destruct M; [|discriminate HM]. reflexivity.
Qed.

(** The data blocks, put end to end, are the first [64 * (len / 64)] bytes
    of the input. *)
Lemma concat_chunks (data : buffer) (q : nat) :
  concat ((fun k => data <$> seqZ (64 * k) 64) <$> seqZ 0 (Z.of_nat q))
  = data <$> seqZ 0 (64 * Z.of_nat q).
Proof.
  induction q as [|q IH]; [reflexivity|].
  rewrite seqZ_S, fmap_app, concat_app, IH. cbn [fmap list_fmap concat].
  rewrite app_nil_r, <- fmap_app. f_equal.
  replace (64 * Z.of_nat (S q)) with (64 * Z.of_nat q + 64) by lia.
  rewrite seqZ_app by lia. do 2 f_equal; lia.
Qed.

Lemma Forall_u8_chunk (data : buffer) len a n :
  (forall k, 0 <= k < len -> is_u8 (data k)) ->
  0 <= a -> a + n <= len ->
  Forall is_u8 (data <$> seqZ a n).
Proof.
  intros Hdata Ha Hn. apply Forall_fmap, Forall_seqZ.
  intros k Hk. apply Hdata. lia.
Qed.

Lemma Forall_u8_last_data (data : buffer) len :
  is_size_t len -> (forall k, 0 <= k < len -> is_u8 (data k)) ->
  Forall is_u8 ((data <$> seqZ (64 * (len / 64)) (len mod 64))
                ++ 0x80 :: replicate (Z.to_nat (63 - len mod 64)) 0).
Proof.
  unfold is_size_t. intros Hlen Hdata. apply Forall_app. split.
  - apply (Forall_u8_chunk data len); [assumption | divlia..].
  - apply Forall_cons. split; [unfold is_u8; lia|].
    apply Forall_replicate. unfold is_u8. lia.
Qed.

Lemma length_last_data (data : buffer) len :
  is_size_t len ->
  length ((data <$> seqZ (64 * (len / 64)) (len mod 64))
          ++ 0x80 :: replicate (Z.to_nat (63 - len mod 64)) 0) = 64%nat.
Proof.
  unfold is_size_t. intros Hlen.
  rewrite length_app, length_fmap, length_seqZ. cbn [length].
  rewrite length_replicate. divlia.
Qed.

(** The padded message is the input, the marker, zeros and the bit length. *)
Lemma padded_message_closed data len :
  is_size_t len -> (forall k, 0 <= k < len -> is_u8 (data k)) ->
  padded_message data len
  = (data <$> seqZ 0 len)
    ++ 0x80 :: replicate (Z.to_nat (64 * block_count len - len - 9)) 0
    ++ be_bytes64 (wrap64 (len * 8)).
Proof.
  intros Hlen Hdata. pose proof Hlen as Hlen'. unfold is_size_t in Hlen'.
  pose proof (Forall_u8_last_data data len Hlen Hdata) as Hu8.
  pose proof (length_last_data data len Hlen) as Hlast.
  unfold padded_message.
  rewrite blocks_closed, block_count_nowrap by assumption. cbv zeta.
  rewrite fmap_app, concat_app, <- list_fmap_compose.
  rewrite (list_fmap_ext _ (fun k => data <$> seqZ (64 * k) 64)).
  2: { intros j k Hk. apply lookup_seqZ in Hk. cbn.
       apply block_bytes_msgblk_words.
       - rewrite length_fmap, length_seqZ. lia.
       - apply (Forall_u8_chunk data len); [assumption | divlia..]. }
  rewrite <- (Z2Nat.id (len / 64)) at 1 by divlia.
  rewrite concat_chunks, Z2Nat.id by divlia.
  assert (data <$> seqZ 0 len
          = (data <$> seqZ 0 (64 * (len / 64)))
            ++ (data <$> seqZ (64 * (len / 64)) (len mod 64))) as ->.
  { rewrite <- fmap_app. f_equal.
    replace (seqZ (64 * (len / 64)) (len mod 64))
      with (seqZ (0 + 64 * (len / 64)) (len mod 64)) by (f_equal; lia).
    rewrite <- seqZ_app by divlia. f_equal. divlia. }
  rewrite <- app_assoc. f_equal.
  destruct (Z.geb_spec (len mod 64) 56) as [Hr|Hr];
    cbn [fmap list_fmap concat]; rewrite app_nil_r.
  - rewrite block_bytes_msgblk_words by assumption.
    rewrite block_bytes_set_bitlen by reflexivity.
    rewrite <- app_assoc. cbn [app]. do 2 f_equal.
    change (take 56 (block_bytes (msgblk_words (replicate 64 0))))
      with (replicate 56 0).
    rewrite app_assoc, <- replicate_add.
    replace (Z.to_nat (64 * (len / 64 + 1 + 1) - len - 9))
      with (Z.to_nat (63 - len mod 64) + 56)%nat by divlia.
    reflexivity.
  - rewrite block_bytes_set_bitlen by reflexivity.
    rewrite block_bytes_msgblk_words by assumption.
    replace (Z.to_nat (63 - len mod 64))
      with (Z.to_nat (55 - len mod 64) + 8)%nat by divlia.
    rewrite replicate_add.
    change (?a ++ 128 :: ?b ++ ?c) with (a ++ (128 :: b) ++ c).
    rewrite app_assoc, take_app_length'.
    2: { rewrite length_app, length_fmap, length_seqZ. cbn [length].
         rewrite length_replicate. divlia. }
    rewrite <- app_assoc. cbn [app].
    replace (64 * (len / 64 + 1 + 0) - len - 9) with (55 - len mod 64)
      by divlia.
    reflexivity.
Qed.

(** ** The macros and the functions of the specification *)

Lemma ROTR_spec x n : is_u32 x -> 0 < n < 32 -> ROTR x n = spec_rotr x n.
Proof.
  unfold is_u32. intros Hx Hn. unfold spec_rotr.
  rewrite <- Z.shiftr_div_pow2, <- Z.shiftl_mul_pow2 by lia.
  rewrite <- (Z.mod_small x (2 ^ 32)) by lia.
  rewrite <- Z.or_to_plus by bits.
  unfold ROTR, shl32, shr, wrap32. bits.
Qed.

Lemma s0_spec x : is_u32 x -> s0 x = spec_sigma0 x.
Proof. intros Hx. unfold s0, spec_sigma0, shr. by rewrite !ROTR_spec by (trivial; lia). Qed.

Lemma s1_spec x : is_u32 x -> s1 x = spec_sigma1 x.
Proof. intros Hx. unfold s1, spec_sigma1, shr. by rewrite !ROTR_spec by (trivial; lia). Qed.

Lemma e0_spec x : is_u32 x -> e0 x = spec_Sigma0 x.
Proof. intros Hx. unfold e0, spec_Sigma0. by rewrite !ROTR_spec by (trivial; lia). Qed.

Lemma e1_spec x : is_u32 x -> e1 x = spec_Sigma1 x.
Proof. intros Hx. unfold e1, spec_Sigma1. by rewrite !ROTR_spec by (trivial; lia). Qed.

Lemma CH_spec x y z : is_u32 z -> CH x y z = spec_Ch x y z.
Proof.
  unfold is_u32. intros Hz. unfold CH, spec_Ch, not32, wrap32.
  rewrite <- (Z.mod_small z (2 ^ 32)) by lia. bits.
Qed.

Lemma MAJ_spec x y z : MAJ x y z = spec_Maj x y z.
Proof. reflexivity. Qed.

(** Sums reduced word by word are sums reduced once. *)
Lemma add32_mod_l x y : add32 (x mod 2 ^ 32) y = (x + y) mod 2 ^ 32.
Proof. unfold add32, wrap32. by rewrite Zplus_mod_idemp_l. Qed.

Lemma add32_4 a b c d :
  add32 (add32 (add32 a b) c) d = (a + b + c + d) mod 2 ^ 32.
Proof.
  change (add32 a b) with ((a + b) mod 2 ^ 32). by rewrite !add32_mod_l.
Qed.

Lemma add32_5 a b c d e :
  add32 (add32 (add32 (add32 a b) c) d) e = (a + b + c + d + e) mod 2 ^ 32.
Proof.
  change (add32 a b) with ((a + b) mod 2 ^ 32). by rewrite !add32_mod_l.
Qed.

Lemma add32_u32 x y : is_u32 (add32 x y).
Proof. apply wrap32_range. Qed.

(** ** The compression rounds *)

Lemma round_spec W t v : vars_u32 v -> round W t v = spec_round W t v.
Proof.
  destruct v as [a b c d e f g h].
  intros (Ha & Hb & Hc & Hd & He & Hf & Hg & Hh). cbn in *.
  unfold round, spec_round. cbn [wv_a wv_b wv_c wv_d wv_e wv_f wv_g wv_h].
  assert (add32 (add32 (add32 (add32 h (e1 e)) (CH e f g)) (K !!! t)) (W !!! t)
          = (h + spec_Sigma1 e + spec_Ch e f g + K !!! t + W !!! t) mod 2 ^ 32)
    as -> by (by rewrite add32_5, e1_spec, CH_spec by assumption).
  rewrite e0_spec, MAJ_spec by assumption.
  reflexivity.
Qed.

Lemma round_u32 W t v : vars_u32 v -> vars_u32 (round W t v).
Proof.
  destruct v as [a b c d e f g h].
  intros (Ha & Hb & Hc & Hd & He & Hf & Hg & Hh). cbn in *.
  unfold round, vars_u32. cbn [wv_a wv_b wv_c wv_d wv_e wv_f wv_g wv_h].
  auto 10 using add32_u32.
Qed.

Lemma rounds_spec W n : forall t v,
  vars_u32 v ->
  rounds n t W v = fold_left (fun v t => spec_round W t v) (seq t n) v
  /\ vars_u32 (rounds n t W v).
Proof.
  induction n as [|n IH]; intros t v Hv; [by split|].
  cbn [rounds seq fold_left]. rewrite <- round_spec by assumption.
  apply IH. by apply round_u32.
Qed.

Lemma load_vars_u32 H : Forall is_u32 H -> length H = 8%nat -> vars_u32 (load_vars H).
Proof.
  intros HH Hlen.
  do 8 (destruct H as [|? H]; [discriminate Hlen|]).
  repeat (apply Forall_cons in HH as [? HH]).
  unfold vars_u32, load_vars. cbn. auto 10.
Qed.

Lemma process_block_spec H M :
  length H = 8%nat -> Forall is_u32 H ->
  process_block H M = spec_compress H (schedule M).
Proof.
  intros Hlen HH. unfold process_block, spec_compress.
  destruct (rounds_spec (schedule M) 64 0 (load_vars H)) as [-> _];
    [by apply load_vars_u32|].
  generalize (fold_left (fun v t => spec_round (schedule M) t v) (seq 0 64)
                        (load_vars H)).
  intros v.
  do 8 (destruct H as [|? H]; [discriminate Hlen|]).
  destruct H; [|discriminate Hlen]. reflexivity.
Qed.

Lemma process_block_u32 H M :
  length H = 8%nat -> Forall is_u32 (process_block H M).
Proof.
  intros Hlen. unfold process_block.
  generalize (rounds 64 0 (schedule M) (load_vars H)). intros v.
  do 8 (destruct H as [|? H]; [discriminate Hlen|]).
  destruct H; [|discriminate Hlen].
  unfold add_vars. cbn. repeat (apply Forall_cons; split; [apply add32_u32|]).
  apply Forall_nil_2.
Qed.

(** ** The message schedule *)

Lemma length_schedule_copy n : forall t M W,
  length (schedule_copy n t M W) = length W.
Proof.
  induction n as [|n IH]; intros t M W; [reflexivity|].
  cbn [schedule_copy]. by rewrite IH, length_insert.
Qed.

Lemma length_schedule_expand n : forall t W,
  length (schedule_expand n t W) = length W.
Proof.
  induction n as [|n IH]; intros t W; [reflexivity|].
  cbn [schedule_expand]. by rewrite IH, length_insert.
Qed.

(** The first loop leaves the entries below [t] alone. *)
Lemma schedule_copy_lt n : forall t M W j,
  (j < t)%nat -> schedule_copy n t M W !!! j = W !!! j.
Proof.
  induction n as [|n IH]; intros t M W j Hj; [reflexivity|].
  cbn [schedule_copy]. rewrite IH by lia.
  apply list_lookup_total_insert_ne. lia.
Qed.

Lemma schedule_copy_at n : forall t M W j,
  (t + n <= length W)%nat -> (t <= j < t + n)%nat ->
  schedule_copy n t M W !!! j = M !!! j.
Proof.
  induction n as [|n IH]; intros t M W j Hlen Hj; [lia|].
  cbn [schedule_copy]. destruct (decide (j = t)) as [->|Hne].
  - rewrite schedule_copy_lt by lia.
    apply list_lookup_total_insert_eq. lia.
  - apply IH; [rewrite length_insert|]; lia.
Qed.

(** The second loop leaves the entries below [t] alone. *)
Lemma schedule_expand_lt n : forall t W j,
  (j < t)%nat -> schedule_expand n t W !!! j = W !!! j.
Proof.
  induction n as [|n IH]; intros t W j Hj; [reflexivity|].
  cbn [schedule_expand]. rewrite IH by lia.
  apply list_lookup_total_insert_ne. lia.
Qed.

(** [schedule_word W t] only reads entries below [t]. *)
Lemma schedule_word_ext (W W' : list Z) t :
  (16 <= t)%nat -> (forall j, (j < t)%nat -> W !!! j = W' !!! j) ->
  schedule_word W t = schedule_word W' t.
Proof.
  intros Ht HW. unfold schedule_word. by rewrite !HW by lia.
Qed.

(** Every entry the second loop writes satisfies the recurrence in the
    final array. *)
Lemma schedule_expand_at n : forall t W j,
  (16 <= t)%nat -> (t + n <= length W)%nat -> (t <= j < t + n)%nat ->
  schedule_expand n t W !!! j = schedule_word (schedule_expand n t W) j.
Proof.
  induction n as [|n IH]; intros t W j Ht Hlen Hj; [lia|].
  cbn [schedule_expand]. destruct (decide (j = t)) as [->|Hne].
  - rewrite schedule_expand_lt by lia.
    rewrite list_lookup_total_insert_eq by lia.
    apply schedule_word_ext; [assumption|]. intros j Hj'.
    rewrite schedule_expand_lt by lia.
    symmetry. apply list_lookup_total_insert_ne. lia.
  - apply IH; [|rewrite length_insert|]; lia.
Qed.

Lemma schedule_from_lt16 W0 M t :
  length W0 = 64%nat -> (t < 16)%nat -> schedule_from W0 M !!! t = M !!! t.
Proof.
  intros HW Ht. unfold schedule_from.
  rewrite schedule_expand_lt by lia. apply schedule_copy_at; lia.
Qed.

Lemma schedule_from_ge16 W0 M t :
  length W0 = 64%nat -> (16 <= t < 64)%nat ->
  schedule_from W0 M !!! t = schedule_word (schedule_from W0 M) t.
Proof.
  intros HW Ht. unfold schedule_from.
  apply schedule_expand_at; [|rewrite length_schedule_copy|]; lia.
Qed.

Lemma schedule_from_u32 W0 M t :
  length W0 = 64%nat -> length M = 16%nat -> Forall is_u32 M ->
  (t < 64)%nat -> is_u32 (schedule_from W0 M !!! t).
Proof.
  intros HW HM Hu32 Ht. destruct (decide (t < 16)%nat) as [Hlt|Hge].
  - rewrite schedule_from_lt16 by assumption.
    apply Forall_lookup_total_1; [assumption | lia].
  - rewrite schedule_from_ge16 by lia. apply add32_u32.
Qed.

Lemma schedule_word_spec (W : list Z) t :
  is_u32 (W !!! (t - 2)%nat) -> is_u32 (W !!! (t - 15)%nat) ->
  schedule_word W t
  = (spec_sigma1 (W !!! (t - 2)%nat) + W !!! (t - 7)%nat
     + spec_sigma0 (W !!! (t - 15)%nat) + W !!! (t - 16)%nat) mod 2 ^ 32.
Proof.
  intros H2 H15. unfold schedule_word.
  by rewrite add32_4, s1_spec, s0_spec by assumption.
Qed.

(** ** Well-formed blocks and hash states *)

Lemma BYTESWAP_u32 x : is_u32 (BYTESWAP x).
Proof.
  assert (BYTESWAP x mod 2 ^ 32 = BYTESWAP x) as <- by (unfold_bits; bits).
  apply wrap32_range.
Qed.

Lemma msgblk_u32 data len N i data_pos :
  Forall is_u32 (msgblk data len N i data_pos).
Proof.
  assert (Forall is_u32 (msgblk_words (msgblk_bytes data len N i data_pos))).
  { unfold msgblk_words. apply Forall_fmap, Forall_forall.
    intros w _. apply BYTESWAP_u32. }
  unfold msgblk, set_bitlen. destruct (i =? N); [|assumption].
  repeat apply Forall_insert; auto using wrap32_range.
Qed.

Lemma blocks_wf data len M :
  M ∈ blocks data len -> length M = 16%nat /\ Forall is_u32 M.
Proof.
  unfold blocks. intros (it & -> & _)%list_elem_of_fmap.
  split; [apply length_msgblk | apply msgblk_u32].
Qed.

Lemma fold_process_block_wf Ms : forall H,
  length H = 8%nat -> Forall is_u32 H ->
  length (fold_left process_block Ms H) = 8%nat
  /\ Forall is_u32 (fold_left process_block Ms H).
Proof.
  induction Ms as [|M Ms IH]; intros H Hlen HH; [by split|].
  cbn [fold_left]. apply IH.
  - by rewrite length_process_block.
  - by apply process_block_u32.
Qed.

Lemma H_init_u32 : Forall is_u32 H_init.
Proof. unfold H_init, is_u32. repeat (apply Forall_cons; split; [lia|]). apply Forall_nil_2. Qed.

(** On well-formed hash states the loop body is the compression of the
    specification. *)
Lemma fold_process_block_spec Ms : forall H,
  length H = 8%nat -> Forall is_u32 H ->
  fold_left process_block Ms H
  = fold_left (fun H M => spec_compress H (schedule M)) Ms H.
Proof.
  induction Ms as [|M Ms IH]; intros H Hlen HH; [reflexivity|].
  cbn [fold_left]. rewrite <- process_block_spec by assumption.
  apply IH; [by rewrite length_process_block | by apply process_block_u32].
Qed.

(** ** The call reads the first [len] bytes of [data] only *)

Lemma fmap_seqZ_ext (f g : Z -> Z) a n :
  (forall k, a <= k < a + n -> f k = g k) -> f <$> seqZ a n = g <$> seqZ a n.
Proof.
  intros Hfg. apply list_fmap_ext. intros j k Hk.
  apply lookup_seqZ in Hk. apply Hfg. lia.
Qed.

Lemma blocks_ext (data data' : buffer) len :
  is_size_t len -> (forall k, 0 <= k < len -> data k = data' k) ->
  blocks data len = blocks data' len.
Proof.
  intros Hlen Hdata. pose proof Hlen as Hlen'. unfold is_size_t in Hlen'.
  rewrite !blocks_closed by assumption. cbv zeta.
  rewrite (fmap_seqZ_ext data data' (64 * (len / 64)) (len mod 64))
    by (intros; apply Hdata; divlia).
  f_equal. apply list_fmap_ext. intros j k Hk. apply lookup_seqZ in Hk.
  cbv beta. f_equal. apply fmap_seqZ_ext. intros; apply Hdata; divlia.
Qed.

Lemma sha256_hash_ext (data data' : buffer) len :
  is_size_t len -> (forall k, 0 <= k < len -> data k = data' k) ->
  sha256_hash data len = sha256_hash data' len.
Proof.
  intros Hlen Hdata. rewrite !sha256_hash_blocks by assumption.
  by rewrite (blocks_ext data data').
Qed.

(** The loop index takes the values [1 .. N], in this order. *)
Lemma iterations_indices len :
  is_size_t len -> fst <$> iterations len = seqZ 1 (block_count len).
Proof.
  intros Hlen. rewrite iterations_closed by assumption.
  rewrite <- list_fmap_compose. rewrite <- list_fmap_id.
  by apply list_fmap_ext.
Qed.

(** ** The last block *)

Lemma blocks_last data len :
  is_size_t len ->
  exists front X,
    blocks data len = front ++ [set_bitlen len X]
    /\ length X = 16%nat
    /\ Z.of_nat (length front) = block_count len - 1.
Proof.
  intros Hlen. pose proof Hlen as Hlen'. unfold is_size_t in Hlen'.
  rewrite blocks_closed, block_count_nowrap by assumption. cbv zeta.
  destruct (len mod 64 >=? 56).
  - eexists (_ ++ [_]), _. rewrite <- app_assoc. split; [reflexivity|].
    split; [reflexivity|].
    rewrite length_app, length_fmap, length_seqZ. cbn [length]. divlia.
  - eexists _, _. split; [reflexivity|]. split; [reflexivity|].
    rewrite length_fmap, length_seqZ. divlia.
Qed.

Lemma length_blocks data len :
  is_size_t len -> Z.of_nat (length (blocks data len)) = block_count len.
Proof.
  intros Hlen. destruct (blocks_last data len Hlen) as (front & X & -> & _ & E).
  rewrite length_app. cbn [length]. lia.
Qed.

Lemma length_padded_blocks (Ms : list (list Z)) :
  Forall (fun M => length M = 16%nat) Ms ->
  length (concat (block_bytes <$> Ms)) = (64 * length Ms)%nat.
Proof.
  induction 1 as [|M Ms HM _ IH]; [reflexivity|].
  cbn [fmap list_fmap concat length]. rewrite length_app, length_block_bytes. lia.
Qed.

Lemma blocks_length16 data len :
  Forall (fun M => length M = 16%nat) (blocks data len).
Proof. apply Forall_forall. intros M HM. by apply blocks_wf in HM as [? _]. Qed.

Lemma length_padded_message data len :
  is_size_t len ->
  Z.of_nat (length (padded_message data len)) = 64 * block_count len.
Proof.
  intros Hlen. unfold padded_message.
  rewrite length_padded_blocks by apply blocks_length16.
  rewrite <- length_blocks with (data := data) by assumption. lia.
Qed.

Lemma set_bitlen_words len X :
  length X = 16%nat ->
  set_bitlen len X !!! 14%nat = wrap32 (shr (wrap64 (len * 8)) 32)
  /\ set_bitlen len X !!! 15%nat = wrap32 (wrap64 (len * 8)).
Proof.
  intros HX. unfold set_bitlen. split.
  - apply list_lookup_total_insert_eq. rewrite length_insert. lia.
  - rewrite list_lookup_total_insert_ne by lia.
    apply list_lookup_total_insert_eq. lia.
Qed.

(** The two words of the length field hold the 64-bit value, high half
    first. *)
Lemma bitlen_halves x :
  is_size_t x -> wrap32 (shr x 32) * 2 ^ 32 + wrap32 x = x.
Proof.
  unfold is_size_t, wrap32, shr. intros Hx.
  rewrite Z.shiftr_div_pow2 by lia. divlia.
Qed.

Lemma last_block_words data len :
  is_size_t len ->
  exists M,
    last (blocks data len) = Some M
    /\ M !!! 14%nat = wrap32 (shr (wrap64 (len * 8)) 32)
    /\ M !!! 15%nat = wrap32 (wrap64 (len * 8)).
Proof.
  intros Hlen. destruct (blocks_last data len Hlen) as (front & X & -> & HX & _).
  exists (set_bitlen len X). split; [apply last_snoc|].
  by apply set_bitlen_words.
Qed.

(** When [len] is a multiple of 64 the last block holds the marker,
    zeros and the length field only. *)
Lemma last_block_aligned data len :
  is_size_t len -> len mod 64 = 0 ->
  last (blocks data len)
  = Some (0x80000000 :: replicate 13 0
          ++ [wrap32 (shr (wrap64 (len * 8)) 32); wrap32 (wrap64 (len * 8))]).
Proof.
  intros Hlen Hr. rewrite blocks_closed, Hr by assumption. cbv zeta.
  change (0 >=? 56) with false. cbv iota.
  rewrite (seqZ_nil (64 * (len / 64)) 0) by lia. rewrite last_snoc. reflexivity.
Qed.

(** ** What a call returns *)

Lemma sha256_returns_md data len s : (sha256 data len s).1 = addr_md.
Proof. reflexivity. Qed.

Lemma sha256_read_digest data len s :
  length (md s) = 32%nat ->
  read_digest (sha256 data len s).2 (sha256 data len s).1
  = Some (digest_bytes (sha256_hash data len)).
Proof. intros Hs. by rewrite sha256_eq. Qed.

(** * The statements of the specification *)

(** C1.  For the empty input ([len = 0]), whatever [data] points to,
    [sha256] returns a pointer to the digest
    e3b0c44298fc1c149afbf4c8996fb92427ae41e4649b934ca495991b7852b855.
    The call processes a single block: its bytes are the [0x80] marker at
    position 0 followed by zeros, and its last eight bytes encode the bit
    length 0. *)
Theorem sha256_empty (data : buffer) (s : statics) :
  length (md s) = 32%nat ->
  hex <$> read_digest (sha256 data 0 s).2 (sha256 data 0 s).1
  = Some "e3b0c44298fc1c149afbf4c8996fb92427ae41e4649b934ca495991b7852b855"%string
  /\ raw_blocks data 0 = [0x80 :: replicate 63 0]
  /\ blocks data 0 = [0x80000000 :: replicate 15 0]
  /\ padded_message data 0 = 0x80 :: replicate 55 0 ++ be_bytes64 0.
Proof.
  intros Hs. rewrite sha256_read_digest by assumption.
  repeat split; vm_compute; reflexivity.
Qed.

Lemma sha256_empty_witness :
  length (md s_init) = 32%nat
  /\ hex <$> read_digest (sha256 (buffer_of_list []) 0 s_init).2
                         (sha256 (buffer_of_list []) 0 s_init).1
     = Some "e3b0c44298fc1c149afbf4c8996fb92427ae41e4649b934ca495991b7852b855"%string.
Proof.
  split; [reflexivity|].
  apply (sha256_empty (buffer_of_list []) s_init). reflexivity.
Defined.

(** C2.  For an input whose three bytes are the ASCII characters "abc",
    [sha256] returns a pointer to the digest
    ba7816bf8f01cfea414140de5dae2223b00361a396177a9cb410ff61f20015ad. *)
Theorem sha256_abc (data : buffer) (s : statics) :
  length (md s) = 32%nat ->
  data 0 = 0x61 -> data 1 = 0x62 -> data 2 = 0x63 ->
  hex <$> read_digest (sha256 data 3 s).2 (sha256 data 3 s).1
  = Some "ba7816bf8f01cfea414140de5dae2223b00361a396177a9cb410ff61f20015ad"%string.
Proof.
  intros Hs H0 H1 H2. rewrite sha256_read_digest by assumption.
  rewrite (sha256_hash_ext data (buffer_of_list [0x61; 0x62; 0x63])).
  - vm_compute. reflexivity.
  - unfold is_size_t. lia.
  - intros k Hk.
    assert (k = 0 \/ k = 1 \/ k = 2) as [-> | [-> | ->]] by lia; assumption.
Qed.

Lemma sha256_abc_witness :
  hex <$> read_digest (sha256 (buffer_of_list [0x61; 0x62; 0x63]) 3 s_init).2
                      (sha256 (buffer_of_list [0x61; 0x62; 0x63]) 3 s_init).1
  = Some "ba7816bf8f01cfea414140de5dae2223b00361a396177a9cb410ff61f20015ad"%string.
Proof.
  apply (sha256_abc (buffer_of_list [0x61; 0x62; 0x63]) s_init); reflexivity.
Defined.

(** C3.  For every input length [len], the number of 64-byte blocks that
    [sha256] processes is [len / 64 + 1 + (1 if len mod 64 >= 56 else 0)]:
    this is the value of [N], without wrap-around; the loop runs its body
    for the indices [1 .. N] and then leaves through its guard; this is
    the number of blocks built, and the hash is the block function folded
    over them.  When [len] is a multiple of 64, the data fills the first
    [len / 64] blocks and a dedicated last block is appended, made of the
    marker, zeros and the length field only. *)
Theorem sha256_block_count (data : buffer) (len : Z) :
  is_size_t len ->
  block_count len = len / 64 + 1 + (if len mod 64 >=? 56 then 1 else 0)
  /\ fst <$> iterations len = seqZ 1 (block_count len)
  /\ (forall k,
      sha256_loop (S (Z.to_nat (block_count len)) + k) data len
                  (block_count len) 1 0 H_init
      = sha256_hash data len)
  /\ Z.of_nat (length (blocks data len))
     = len / 64 + 1 + (if len mod 64 >=? 56 then 1 else 0)
  /\ sha256_hash data len = fold_left process_block (blocks data len) H_init
  /\ (len mod 64 = 0 ->
      Z.of_nat (length (blocks data len)) = len / 64 + 1
      /\ raw_blocks data len
         = ((fun k => data <$> seqZ (64 * k) 64) <$> seqZ 0 (len / 64))
           ++ [0x80 :: replicate 63 0]
      /\ last (blocks data len)
         = Some (0x80000000 :: replicate 13 0
                 ++ [wrap32 (shr (wrap64 (len * 8)) 32);
                     wrap32 (wrap64 (len * 8))])).
Proof.
  intros Hlen. pose proof (block_count_nowrap len Hlen) as HN.
  split; [assumption|].
  split; [by apply iterations_indices|].
  split; [intros k; by apply sha256_loop_fuel|].
  split; [by rewrite length_blocks|].
  split; [by apply sha256_hash_blocks|].
  intros Hr. split; [|split].
  - rewrite length_blocks, HN, Hr by assumption.
    change (0 >=? 56) with false. cbv iota. lia.
  - rewrite raw_blocks_closed, Hr by assumption.
    change (0 >=? 56) with false. cbv iota.
    rewrite (seqZ_nil (64 * (len / 64)) 0) by lia. reflexivity.
  - by apply last_block_aligned.
Qed.

Lemma sha256_block_count_witness :
  is_size_t 64
  /\ Z.of_nat (length (blocks (fun _ => 0x61) 64)) = 64 / 64 + 1 + 0.
Proof.
  assert (is_size_t 64) as H by (unfold is_size_t; lia).
  split; [exact H|].
  exact (proj1 (proj2 (proj2 (proj2
           (sha256_block_count (fun _ => 0x61) 64 H))))).
Defined.

(** C4.  For every block [M] of sixteen 32-bit words, and whatever the
    array [W] holds beforehand, the message schedule has
    [W[t] = M[t]] for [0 <= t <= 15] and
    [W[t] = σ1(W[t-2]) + W[t-7] + σ0(W[t-15]) + W[t-16]] modulo [2^32] for
    [16 <= t <= 63], with [σ0] and [σ1] as the specification defines them
    from rotations and shifts.  Every block of a call is such a block
    ([blocks_wf]). *)
Theorem schedule_recurrence (W0 M : list Z) :
  length W0 = 64%nat -> length M = 16%nat -> Forall is_u32 M ->
  let W := schedule_from W0 M in
  length W = 64%nat
  /\ (forall t, (t < 16)%nat -> W !!! t = M !!! t)
  /\ (forall t, (16 <= t < 64)%nat ->
      W !!! t
      = (spec_sigma1 (W !!! (t - 2)%nat) + W !!! (t - 7)%nat
         + spec_sigma0 (W !!! (t - 15)%nat) + W !!! (t - 16)%nat) mod 2 ^ 32).
Proof.
  intros HW HM Hu32 W. split; [|split].
  - unfold W, schedule_from.
    by rewrite length_schedule_expand, length_schedule_copy.
  - intros t Ht. by apply schedule_from_lt16.
  - intros t Ht. unfold W. rewrite schedule_from_ge16 at 1 by assumption.
    apply schedule_word_spec; apply schedule_from_u32; auto; lia.
Qed.

Lemma schedule_recurrence_witness :
  let M := 0x80000000 :: replicate 15 0 in
  let W := schedule_from (replicate 64 0) M in
  W !!! 16%nat
  = (spec_sigma1 (W !!! 14%nat) + W !!! 9%nat
     + spec_sigma0 (W !!! 1%nat) + W !!! 0%nat) mod 2 ^ 32.
Proof.
  intros M W.
  apply (schedule_recurrence (replicate 64 0) M); [reflexivity | reflexivity | | lia].
  unfold M, is_u32. repeat (apply Forall_cons; split; [lia|]). apply Forall_nil_2.
Defined.

(** C5.  For every block, each of the 64 rounds computes
    [T1 = h + Σ1(e) + Ch(e,f,g) + K[t] + W[t]] and
    [T2 = Σ0(a) + Maj(a,b,c)] and shifts the working variables as
    [h=g; g=f; f=e; e=d+T1; d=c; c=b; b=a; a=T1+T2], every sum modulo
    [2^32]; after the 64 rounds [a..h] are added to [H0..H7] modulo [2^32].
    Stated for one round, for the 64 rounds, for the block function, and
    for all the blocks of a call. *)
Theorem compression_rounds (H M : list Z) (t : nat) (v : vars) :
  length H = 8%nat -> Forall is_u32 H -> vars_u32 v ->
  let W := schedule M in
  round W t v = spec_round W t v
  /\ vars_u32 (round W t v)
  /\ rounds 64 0 W (load_vars H)
     = fold_left (fun v t => spec_round W t v) (seq 0 64) (load_vars H)
  /\ process_block H M = spec_compress H W
  /\ (forall data len,
      is_size_t len ->
      sha256_hash data len
      = fold_left (fun H M => spec_compress H (schedule M))
                  (blocks data len) H_init).
Proof.
  intros Hlen HH Hv W. split; [by apply round_spec|].
  split; [by apply round_u32|].
  split; [apply rounds_spec; by apply load_vars_u32|].
  split; [by apply process_block_spec|].
  intros data len Hsz. rewrite sha256_hash_blocks by assumption.
  apply fold_process_block_spec; [reflexivity | apply H_init_u32].
Qed.

Lemma compression_rounds_witness :
  let M := 0x80000000 :: replicate 15 0 in
  process_block H_init M = spec_compress H_init (schedule M).
Proof.
  intros M.
  apply (compression_rounds H_init M 0 (load_vars H_init));
    [reflexivity | apply H_init_u32 |].
  apply load_vars_u32; [apply H_init_u32 | reflexivity].
Defined.

(** The last eight bytes of the padded message are the big-endian bytes
    of the 64-bit value [(uint64_t) len * 8]. *)
Lemma padded_message_last8 data len :
  is_size_t len ->
  drop (length (padded_message data len) - 8) (padded_message data len)
  = be_bytes64 (wrap64 (len * 8)).
Proof.
  intros Hlen.
  destruct (blocks_last data len Hlen) as (front & X & E & HX & _).
  unfold padded_message. rewrite E, fmap_app, concat_app.
  cbn [fmap list_fmap concat].
  rewrite block_bytes_set_bitlen, app_nil_r, app_assoc by assumption.
  rewrite length_app. change (length (be_bytes64 _)) with 8%nat.
  rewrite Nat.add_sub. apply drop_app_length.
Qed.

(** C6, as the specification states it for every input, fails: for a
    buffer of [2^61] zero bytes the bit length is [2^64], words 14 and 15
    of the last block are both 0, and the last eight bytes of the padded
    message are zero: they encode 0, not the bit length of the input. *)
Lemma final_block_bitlen_wraps :
  let data : buffer := fun _ => 0 in
  let len := 2 ^ 61 in
  is_size_t len
  /\ (forall k, 0 <= k < len -> is_u8 (data k))
  /\ len * 8 = 2 ^ 64
  /\ (exists M,
        last (blocks data len) = Some M
        /\ M !!! 14%nat = 0 /\ M !!! 15%nat = 0
        /\ M !!! 14%nat * 2 ^ 32 + M !!! 15%nat <> len * 8)
  /\ drop (length (padded_message data len) - 8) (padded_message data len)
     = be_bytes64 0.
Proof.
  intros data len.
  assert (is_size_t len) as Hlen by (unfold is_size_t, len; lia).
  split; [exact Hlen|].
  split; [intros k _; unfold data, is_u8; lia|].
  split; [reflexivity|]. split.
  - exists (0x80000000 :: replicate 15 0). split; [|repeat split; discriminate].
    rewrite last_block_aligned; [reflexivity | assumption | reflexivity].
  - rewrite padded_message_last8 by assumption. reflexivity.
Qed.

(** C6, amended.  For every input whose bit length fits the 64-bit
    counter ([len < 2^61]) the last block has words 14 and 15 overwritten
    with the bit length [len * 8], high half in word 14 and low half in
    word 15, whatever the bytes of the input, and the last eight bytes of
    the padded message are its big-endian encoding.  For every [len] the
    padded message is [N] blocks of 64 bytes, and the two words and the
    last eight bytes hold [(uint64_t) len * 8], that is [len * 8] reduced
    modulo [2^64]. *)
Theorem final_block_bitlen (data : buffer) (len : Z) :
  is_size_t len ->
  let bitlen := wrap64 (len * 8) in
  (exists M,
     last (blocks data len) = Some M
     /\ M !!! 14%nat = wrap32 (shr bitlen 32)
     /\ M !!! 15%nat = wrap32 bitlen
     /\ M !!! 14%nat * 2 ^ 32 + M !!! 15%nat = bitlen)
  /\ Z.of_nat (length (padded_message data len)) = 64 * block_count len
  /\ drop (length (padded_message data len) - 8) (padded_message data len)
     = be_bytes64 bitlen
  /\ (len < 2 ^ 61 -> bitlen = len * 8).
Proof.
  intros Hlen bitlen. split; [|split; [|split]].
  - destruct (last_block_words data len Hlen) as (M & HM & H14 & H15).
    exists M. rewrite H14, H15. repeat split; try assumption.
    apply bitlen_halves, wrap64_range.
  - by apply length_padded_message.
  - by apply padded_message_last8.
  - intros Hlt. apply wrap64_small. unfold is_size_t in *. lia.
Qed.

Lemma final_block_bitlen_witness :
  is_size_t 3
  /\ drop (length (padded_message (buffer_of_list [0x61; 0x62; 0x63]) 3) - 8)
          (padded_message (buffer_of_list [0x61; 0x62; 0x63]) 3)
     = be_bytes64 (wrap64 (3 * 8)).
Proof.
  assert (is_size_t 3) as H by (unfold is_size_t; lia).
  split; [exact H|].
  exact (proj1 (proj2 (proj2
           (final_block_bitlen (buffer_of_list [0x61; 0x62; 0x63]) 3 H)))).
Defined.

(** C7.  For every input, exactly one iteration stores the [0x80] marker:
    the one with index [len / 64 + 1], which copies the last [len mod 64]
    bytes of the input; the marker is the byte that follows the copied
    bytes (position 0 when [len] is 0 or another multiple of 64).  In the
    padded message the input is followed by the marker, and every byte
    between the marker and the length field is zero. *)
Theorem padding_marker (data : buffer) (len : Z) :
  is_size_t len -> (forall k, 0 <= k < len -> is_u8 (data k)) ->
  let N := block_count len in
  pad_flags len
  = replicate (Z.to_nat (len / 64)) false
    ++ true :: replicate (Z.to_nat (N - len / 64 - 1)) false
  /\ iterations len !! Z.to_nat (len / 64)
     = Some (len / 64 + 1, 64 * (len / 64))
  /\ copy_len len (64 * (len / 64)) = len mod 64
  /\ raw_blocks data len !! Z.to_nat (len / 64)
     = Some ((data <$> seqZ (64 * (len / 64)) (len mod 64))
             ++ 0x80 :: replicate (Z.to_nat (63 - len mod 64)) 0)
  /\ (len mod 64 = 0 ->
      raw_blocks data len !! Z.to_nat (len / 64) = Some (0x80 :: replicate 63 0))
  /\ padded_message data len
     = (data <$> seqZ 0 len)
       ++ 0x80 :: replicate (Z.to_nat (64 * N - len - 9)) 0
       ++ be_bytes64 (wrap64 (len * 8)).
Proof.
  intros Hlen Hdata N. pose proof Hlen as Hlen'. unfold is_size_t in Hlen'.
  assert (0 <= len / 64) as Hq by divlia.
  assert (raw_blocks data len !! Z.to_nat (len / 64)
          = Some ((data <$> seqZ (64 * (len / 64)) (len mod 64))
                  ++ 0x80 :: replicate (Z.to_nat (63 - len mod 64)) 0)) as Hraw.
  { rewrite raw_blocks_closed by assumption.
    rewrite lookup_app_r by (rewrite length_fmap, length_seqZ; lia).
    rewrite length_fmap, length_seqZ, Nat.sub_diag. reflexivity. }
  split; [|split; [|split; [|split; [|split]]]].
  - rewrite pad_flags_closed by assumption. unfold N.
    rewrite block_count_nowrap by assumption.
    destruct (len mod 64 >=? 56).
    + by replace (len / 64 + 1 + 1 - len / 64 - 1) with 1 by lia.
    + by replace (len / 64 + 1 + 0 - len / 64 - 1) with 0 by lia.
  - rewrite iterations_split by assumption.
    rewrite lookup_app_r by (rewrite length_fmap, length_seqZ; lia).
    rewrite length_fmap, length_seqZ, Nat.sub_diag. reflexivity.
  - rewrite copy_len_min by (trivial; divlia). divlia.
  - exact Hraw.
  - intros Hr. rewrite Hraw, Hr. rewrite seqZ_nil by lia. reflexivity.
  - by apply padded_message_closed.
Qed.

Lemma padding_marker_witness :
  let data := buffer_of_list [0x61; 0x62; 0x63] in
  padded_message data 3
  = (data <$> seqZ 0 3)
    ++ 0x80 :: replicate (Z.to_nat (64 * block_count 3 - 3 - 9)) 0
    ++ be_bytes64 (wrap64 (3 * 8)).
Proof.
  intros data.
  apply (padding_marker data 3); [unfold is_size_t; lia|].
  intros k Hk. unfold is_u8.
  assert (k = 0 \/ k = 1 \/ k = 2) as [-> | [-> | ->]] by lia;
    (vm_compute; split; [discriminate | reflexivity]).
Defined.

(** C10.  In every iteration that a call reaches and in which the marker
    condition holds, the copy length [msgblk_len] is below 64, so that the
    store of [0x80] at index [msgblk_len] stays inside the 64 bytes of
    [M]; and when [len mod 64 = 0] and [i = N] the copy length is 0. *)
Theorem pad_store_in_bounds (len i data_pos : Z) :
  is_size_t len -> (i, data_pos) ∈ iterations len ->
  let N := block_count len in
  let msgblk_len := copy_len len data_pos in
  pad_cond len N i msgblk_len = true ->
  0 <= msgblk_len < 64
  /\ (Z.to_nat msgblk_len < length (replicate 64 0))%nat
  /\ (len mod 64 = 0 -> i = N -> msgblk_len = 0).
Proof.
  intros Hlen Hit N msgblk_len Hpad.
  pose proof Hlen as Hlen'. unfold is_size_t in Hlen'.
  rewrite iterations_closed in Hit by assumption.
  apply list_elem_of_fmap in Hit as (k & Heq & Hk%elem_of_seqZ).
  cbv beta in Heq. injection Heq as -> ->.
  pose proof (block_count_nowrap len Hlen) as HN. fold N in HN, Hk.
  assert (msgblk_len = Z.min (len - Z.min (64 * (k - 1)) len) 64) as E
    by (apply copy_len_min; [assumption | lia]).
  assert (len mod 64 = 0 -> k = N -> msgblk_len = 0) as Hlast.
  { intros Hr ->. rewrite HN, Hr in E. change (0 >=? 56) with false in E.
    cbv iota in E. divlia. }
  split; [|split]; [| |exact Hlast].
  - unfold pad_cond in Hpad.
    apply orb_true_iff in Hpad as [[Hlt _]%andb_true_iff | [Hr HiN]%andb_true_iff].
    + apply Z.ltb_lt in Hlt. lia.
    + apply Z.eqb_eq in Hr, HiN. rewrite Hlast by assumption. lia.
  - rewrite length_replicate.
    unfold pad_cond in Hpad.
    apply orb_true_iff in Hpad as [[Hlt _]%andb_true_iff | [Hr HiN]%andb_true_iff].
    + apply Z.ltb_lt in Hlt. lia.
    + apply Z.eqb_eq in Hr, HiN. rewrite Hlast by assumption. lia.
Qed.

Lemma pad_store_in_bounds_witness :
  (2, 64) ∈ iterations 64
  /\ pad_cond 64 (block_count 64) 2 (copy_len 64 64) = true
  /\ 0 <= copy_len 64 64 < 64.
Proof.
  assert ((2, 64) ∈ iterations 64) as H
    by (apply (list_elem_of_lookup_2 _ 1%nat); reflexivity).
  split; [exact H|]. split; [reflexivity|].
  apply (pad_store_in_bounds 64 2 64); [unfold is_size_t; lia | exact H | reflexivity].
Defined.

(** C8.  The specification asks that each call own the storage of its
    digest.  The source keeps the digest in [static uint8_t md[ 32 ]] and
    returns the address of that array: any two calls return the same
    pointer, and after a second call the digest read through the pointer
    that the first call returned is the digest of the second input. *)
Theorem sha256_md_shared :
  (forall data1 len1 data2 len2 s,
     (sha256 data1 len1 s).1
     = (sha256 data2 len2 (sha256 data1 len1 s).2).1)
  /\ (let r1 := sha256 (buffer_of_list []) 0 s_init in
      let r2 := sha256 (buffer_of_list [0x61; 0x62; 0x63]) 3 r1.2 in
      hex <$> read_digest r1.2 r1.1
      = Some "e3b0c44298fc1c149afbf4c8996fb92427ae41e4649b934ca495991b7852b855"%string
      /\ hex <$> read_digest r2.2 r1.1
         = Some "ba7816bf8f01cfea414140de5dae2223b00361a396177a9cb410ff61f20015ad"%string).
Proof.
  split; [reflexivity|]. vm_compute. split; reflexivity.
Qed.

(** C9, as the specification states it, fails: for a buffer of [2^61]
    bytes the bit length [2^64] does not fit the 64-bit counter, yet the
    call reports no error, and its last block is the block of the empty
    message, with the wrapped bit length 0 in the length field. *)
Lemma sha256_overflow_unreported :
  let data : buffer := fun _ => 0 in
  let len := 2 ^ 61 in
  is_size_t len
  /\ 2 ^ 64 <= len * 8
  /\ ~ error_outcome (sha256 data len s_init).1
  /\ last (blocks data len) = Some (0x80000000 :: replicate 15 0)
  /\ last (blocks data len) = last (blocks data 0).
Proof.
  intros data len.
  assert (is_size_t len) as Hlen by (unfold is_size_t, len; lia).
  assert (last (blocks data len) = Some (0x80000000 :: replicate 15 0)) as E
    by (rewrite last_block_aligned; [reflexivity | assumption | reflexivity]).
  split; [exact Hlen|]. split; [unfold len; lia|].
  split; [rewrite sha256_returns_md; discriminate|].
  split; [exact E|]. rewrite E. reflexivity.
Qed.

(** C9, amended.  [sha256] has no error outcome: for every input it
    returns the address of [md], never a null pointer, and [md] then holds
    32 bytes.  A bit length that does not fit the 64-bit counter is not
    detected: the length field of the last block holds [len * 8] reduced
    modulo [2^64], which is [len * 8] itself exactly when [len < 2^61]. *)
Theorem sha256_no_error_outcome (data : buffer) (len : Z) (s : statics) :
  is_size_t len -> length (md s) = 32%nat ->
  ~ error_outcome (sha256 data len s).1
  /\ (exists d,
        read_digest (sha256 data len s).2 (sha256 data len s).1 = Some d
        /\ length d = 32%nat)
  /\ (exists M,
        last (blocks data len) = Some M
        /\ M !!! 14%nat * 2 ^ 32 + M !!! 15%nat = (len * 8) mod 2 ^ 64)
  /\ ((len * 8) mod 2 ^ 64 = len * 8 <-> len < 2 ^ 61).
Proof.
  intros Hlen Hs. split; [|split; [|split]].
  - rewrite sha256_returns_md. discriminate.
  - exists (digest_bytes (sha256_hash data len)).
    split; [by apply sha256_read_digest|].
    by rewrite length_digest_bytes, length_sha256_hash.
  - destruct (last_block_words data len Hlen) as (M & HM & H14 & H15).
    exists M. split; [assumption|]. rewrite H14, H15.
    apply bitlen_halves, wrap64_range.
  - unfold is_size_t in Hlen. split; intros H; [divlia|].
    apply Z.mod_small. lia.
Qed.

Lemma sha256_no_error_outcome_witness :
  is_size_t 3 /\ length (md s_init) = 32%nat
  /\ ~ error_outcome (sha256 (buffer_of_list [0x61; 0x62; 0x63]) 3 s_init).1.
Proof.
  assert (is_size_t 3) as H by (unfold is_size_t; lia).
  split; [exact H|]. split; [reflexivity|].
  exact (proj1 (sha256_no_error_outcome
                  (buffer_of_list [0x61; 0x62; 0x63]) 3 s_init H eq_refl)).
Defined.

(** * Further properties of the source *)

(** ** The macros, bit by bit *)

Ltac as_u32 x H := rewrite <- (Z.mod_small x (2 ^ 32)) by (unfold is_u32 in H; lia).

Lemma mod_u32 x : x mod 2 ^ 32 = x -> is_u32 x.
Proof. intros <-. apply wrap32_range. Qed.

(** X1.  [CH] chooses, bit by bit: where the bit of [x] is 1 the result
    has the bit of [y], elsewhere the bit of [z]; on 32-bit words the
    result is a 32-bit word. *)
Theorem CH_chooses (x y z i : Z) :
  is_u32 x -> is_u32 y -> is_u32 z ->
  is_u32 (CH x y z)
  /\ Z.testbit (CH x y z) i
     = if Z.testbit x i then Z.testbit y i else Z.testbit z i.
Proof.
  intros Hx Hy Hz. split.
  - apply mod_u32. as_u32 x Hx. as_u32 y Hy. as_u32 z Hz.
    unfold CH, not32, wrap32. bits.
  - destruct (Z.ltb_spec i 0) as [Hi|Hi].
    + rewrite !Z.testbit_neg_r by lia. reflexivity.
    + as_u32 z Hz. unfold CH, not32, wrap32.
      rewrite Z.lxor_spec, !Z.land_spec, !Z.testbit_mod_pow2, Z.lnot_spec by lia.
      destruct (Z.testbit x i), (Z.testbit y i), (Z.testbit z i), (i <? 32);
        reflexivity.
Qed.

Lemma CH_chooses_witness :
  Z.testbit (CH 0xF0F0F0F0 0xFFFF0000 0x00FFFF00) 8
  = if Z.testbit 0xF0F0F0F0 8 then Z.testbit 0xFFFF0000 8
    else Z.testbit 0x00FFFF00 8.
Proof.
  apply (CH_chooses 0xF0F0F0F0 0xFFFF0000 0x00FFFF00 8); unfold is_u32; lia.
Defined.

(** X2.  [MAJ] is the majority, bit by bit, of its three arguments; on
    32-bit words the result is a 32-bit word. *)
Theorem MAJ_majority (x y z i : Z) :
  is_u32 x -> is_u32 y -> is_u32 z ->
  is_u32 (MAJ x y z)
  /\ Z.testbit (MAJ x y z) i
     = majb (Z.testbit x i) (Z.testbit y i) (Z.testbit z i).
Proof.
  intros Hx Hy Hz. split.
  - apply mod_u32. as_u32 x Hx. as_u32 y Hy. as_u32 z Hz.
    unfold MAJ. bits.
  - unfold MAJ, majb. rewrite !Z.lxor_spec, !Z.land_spec.
    destruct (Z.testbit x i), (Z.testbit y i), (Z.testbit z i); reflexivity.
Qed.

Lemma MAJ_majority_witness :
  Z.testbit (MAJ 0xF0F0F0F0 0xFFFF0000 0x00FFFF00) 20
  = majb (Z.testbit 0xF0F0F0F0 20) (Z.testbit 0xFFFF0000 20)
         (Z.testbit 0x00FFFF00 20).
Proof.
  apply (MAJ_majority 0xF0F0F0F0 0xFFFF0000 0x00FFFF00 20); unfold is_u32; lia.
Defined.

Lemma ROTR_u32 x n : is_u32 x -> 0 < n < 32 -> is_u32 (ROTR x n).
Proof.
  intros Hx Hn. apply mod_u32. as_u32 x Hx.
  unfold ROTR, shl32, shr, wrap32. bits.
Qed.

Lemma ROTL_u32 x n : is_u32 x -> 0 < n < 32 -> is_u32 (ROTL x n).
Proof.
  intros Hx Hn. apply mod_u32. as_u32 x Hx.
  unfold ROTL, shl32, shr, wrap32. bits.
Qed.

(** X3.  [ROTR] rotates a 32-bit word to the right: bit [i] of the result
    is bit [i + n] of the argument, the low [n] bits wrapping around to
    the top. *)
Theorem ROTR_rotates (x n i : Z) :
  is_u32 x -> 0 < n < 32 -> 0 <= i < 32 ->
  is_u32 (ROTR x n)
  /\ Z.testbit (ROTR x n) i = Z.testbit x ((i + n) mod 32).
Proof.
  intros Hx Hn Hi. split; [by apply ROTR_u32|].
  unfold ROTR, shl32, shr, wrap32.
  rewrite Z.lor_spec, Z.shiftr_spec, Z.testbit_mod_pow2 by lia.
  rewrite Z.shiftl_spec by lia.
  destruct (Z.ltb_spec (i + n) 32) as [Hlt|Hge].
  - rewrite (Z.mod_small (i + n)) by lia.
    rewrite (Z.testbit_neg_r x (i - (32 - n))) by lia.
    destruct (i <? 32); cbn; by rewrite orb_false_r.
  - replace ((i + n) mod 32) with (i - (32 - n)) by divlia.
    as_u32 x Hx. rewrite !Z.testbit_mod_pow2 by lia.
    destruct (Z.ltb_spec (i + n) 32); [lia|].
    destruct (Z.ltb_spec i 32); [|lia]. reflexivity.
Qed.

Lemma ROTR_rotates_witness :
  Z.testbit (ROTR 0x80000001 1) 31 = Z.testbit 0x80000001 ((31 + 1) mod 32).
Proof.
  apply (ROTR_rotates 0x80000001 1 31); unfold is_u32; lia.
Defined.

(** X4.  [ROTL] rotates a 32-bit word to the left, bit [i] of the result
    being bit [i - n] of the argument, and undoes [ROTR] by the same
    amount, as [ROTR] undoes it. *)
Theorem ROTL_rotates (x n i : Z) :
  is_u32 x -> 0 < n < 32 -> 0 <= i < 32 ->
  is_u32 (ROTL x n)
  /\ Z.testbit (ROTL x n) i = Z.testbit x ((i - n) mod 32)
  /\ ROTL (ROTR x n) n = x
  /\ ROTR (ROTL x n) n = x.
Proof.
  intros Hx Hn Hi. split; [by apply ROTL_u32|]. split; [|split].
  - unfold ROTL, shl32, shr, wrap32.
    rewrite Z.lor_spec, Z.shiftr_spec, Z.testbit_mod_pow2 by lia.
    rewrite Z.shiftl_spec by lia.
    destruct (Z.ltb_spec i n) as [Hlt|Hge].
    + replace ((i - n) mod 32) with (i + (32 - n)) by divlia.
      rewrite (Z.testbit_neg_r x (i - n)) by lia.
      destruct (i <? 32); reflexivity.
    + rewrite (Z.mod_small (i - n)) by lia.
      as_u32 x Hx. rewrite !Z.testbit_mod_pow2 by lia.
      destruct (Z.ltb_spec (i + (32 - n)) 32); [lia|].
      destruct (Z.ltb_spec i 32); [|lia].
      cbn. by rewrite orb_false_r.
  - as_u32 x Hx. unfold ROTL, ROTR, shl32, shr, wrap32. bits.
  - as_u32 x Hx. unfold ROTL, ROTR, shl32, shr, wrap32. bits.
Qed.

Lemma ROTL_rotates_witness : ROTL (ROTR 0x80000001 7) 7 = 0x80000001.
Proof.
  apply (ROTL_rotates 0x80000001 7 0); unfold is_u32; lia.
Defined.

(** ** The byte swap *)

Lemma mod_u8 x : is_u8 (x mod 2 ^ 8).
Proof. unfold is_u8. apply Z.mod_pos_bound. lia. Qed.

(** A 32-bit word is the little-endian reading of its four bytes. *)
Lemma le32_bytes x :
  is_u32 x ->
  le32 (x mod 2 ^ 8) (shr x 8 mod 2 ^ 8) (shr x 16 mod 2 ^ 8) (shr x 24 mod 2 ^ 8)
  = x.
Proof. intros Hx. as_u32 x Hx. unfold le32, shr. bits. Qed.

Lemma store32_le32 b0 b1 b2 b3 :
  is_u8 b0 -> is_u8 b1 -> is_u8 b2 -> is_u8 b3 ->
  store32 (le32 b0 b1 b2 b3) = [b0; b1; b2; b3].
Proof.
  intros H0 H1 H2 H3. as_u8 b0 H0. as_u8 b1 H1. as_u8 b2 H2. as_u8 b3 H3.
  unfold_bits. f_equal; [|f_equal; [|f_equal; [|f_equal]]]; bits.
Qed.

Lemma store32_BYTESWAP x : is_u32 x -> store32 (BYTESWAP x) = be_bytes32 x.
Proof.
  intros Hx. rewrite <- (le32_bytes x) at 1 by assumption.
  rewrite BYTESWAP_le32 by apply mod_u8.
  rewrite store32_le32 by apply mod_u8. reflexivity.
Qed.

(** X5.  On a 32-bit word [BYTESWAP] reverses the order of the four bytes
    in memory, so that the bytes of the swapped word are the big-endian
    bytes of the word; swapping twice gives the word back. *)
Theorem BYTESWAP_reverses (x : Z) :
  is_u32 x ->
  is_u32 (BYTESWAP x)
  /\ store32 (BYTESWAP x) = reverse (store32 x)
  /\ store32 (BYTESWAP x) = be_bytes32 x
  /\ BYTESWAP (BYTESWAP x) = x.
Proof.
  intros Hx. split; [apply BYTESWAP_u32|].
  split; [by rewrite store32_BYTESWAP|]. split; [by apply store32_BYTESWAP|].
  rewrite <- (le32_bytes x) at 1 by assumption.
  rewrite !BYTESWAP_le32 by apply mod_u8. by apply le32_bytes.
Qed.

Lemma BYTESWAP_reverses_witness :
  store32 (BYTESWAP 0x01020304) = reverse (store32 0x01020304).
Proof. apply (BYTESWAP_reverses 0x01020304). unfold is_u32. lia. Defined.

(** ** The constants *)

Lemma frac_root_bits_b_sound k p c :
  frac_root_bits_b k p c = true -> frac_root_bits k p c.
Proof.
  unfold frac_root_bits_b, frac_root_bits.
  intros [[Hc0 Hc1]%andb_true_iff Hr]%andb_true_iff.
  apply Z.leb_le in Hc0. apply Z.ltb_lt in Hc1.
  apply existsb_exists in Hr as (r & Hin & [Hlo Hhi]%andb_true_iff).
  apply Z.leb_le in Hlo. apply Z.ltb_lt in Hhi.
  apply list_elem_of_In, elem_of_seqZ in Hin.
  split; [lia|]. exists r. split; [lia|]. split; assumption.
Qed.

Lemma frac_root_bits_list k : forall ps cs,
  length ps = length cs ->
  forallb (fun pc => frac_root_bits_b k pc.1 pc.2) (zip ps cs) = true ->
  Forall2 (frac_root_bits k) ps cs.
Proof.
  induction ps as [|p ps IH]; intros [|c cs] Hlen Hall;
    try discriminate Hlen; [constructor|].
  cbn in Hall. apply andb_true_iff in Hall as [Hpc Hall].
  constructor; [by apply frac_root_bits_b_sound|].
  apply IH; [by injection Hlen | assumption].
Qed.

(** At most one word holds the first 32 bits of the fractional part of a
    root. *)
Lemma frac_root_bits_unique k p c c' :
  0 < k -> frac_root_bits k p c -> frac_root_bits k p c' -> c = c'.
Proof.
  intros Hk (Hc & r & Hr & Hlo & Hhi) (Hc' & r' & Hr' & Hlo' & Hhi').
  assert (r * 2 ^ 32 + c < r' * 2 ^ 32 + c' + 1)
    by (apply (Z.pow_lt_mono_l_iff _ _ k); lia).
  assert (r' * 2 ^ 32 + c' < r * 2 ^ 32 + c + 1)
    by (apply (Z.pow_lt_mono_l_iff _ _ k); lia).
  lia.
Qed.

Lemma frac_root_bits_list_unique k ps : forall cs cs',
  0 < k ->
  Forall2 (frac_root_bits k) ps cs -> Forall2 (frac_root_bits k) ps cs' ->
  cs' = cs.
Proof.
  induction ps as [|p ps IH]; intros cs cs' Hk Hcs Hcs'.
  - apply Forall2_nil_inv_l in Hcs, Hcs'. by subst.
  - apply Forall2_cons_inv_l in Hcs as (c & l & Hc & Hl & ->).
    apply Forall2_cons_inv_l in Hcs' as (c' & l' & Hc' & Hl' & ->).
    f_equal; [by apply (frac_root_bits_unique k p) | by apply IH].
Qed.

(** X6.  The table [K] is what its comment says: for each of the first
    sixty-four primes, in increasing order, the first 32 bits of the
    fractional part of the cube root of the prime; no other table is. *)
Theorem K_cube_roots :
  length (primes_below 312) = 64%nat
  /\ Forall2 (frac_root_bits 3) (primes_below 312) K
  /\ (forall K', Forall2 (frac_root_bits 3) (primes_below 312) K' -> K' = K).
Proof.
  assert (Forall2 (frac_root_bits 3) (primes_below 312) K) as HK
    by (apply frac_root_bits_list; vm_compute; reflexivity).
  split; [vm_compute; reflexivity|]. split; [exact HK|].
  intros K' HK'. by apply (frac_root_bits_list_unique 3 (primes_below 312)).
Qed.

(** X7.  The initial hash value is what its comment says: for each of the
    first eight primes the first 32 bits of the fractional part of the
    square root of the prime; no other value is. *)
Theorem H_init_square_roots :
  primes_below 20 = [2; 3; 5; 7; 11; 13; 17; 19]
  /\ Forall2 (frac_root_bits 2) (primes_below 20) H_init
  /\ (forall H, Forall2 (frac_root_bits 2) (primes_below 20) H -> H = H_init).
Proof.
  assert (Forall2 (frac_root_bits 2) (primes_below 20) H_init) as HH
    by (apply frac_root_bits_list; vm_compute; reflexivity).
  split; [vm_compute; reflexivity|]. split; [exact HH|].
  intros H' HH'. by apply (frac_root_bits_list_unique 2 (primes_below 20)).
Qed.

(** ** The copies out of the input *)

(** X8.  In every iteration that a call reaches, [data_pos] is
    [64 * (i - 1)] capped by [len]; the subtraction [len - data_pos] and
    the update of [data_pos] do not wrap; [memcpy] copies at most 64 bytes,
    so it stays inside [M], and reads no byte at offset [len] or beyond. *)
Theorem memcpy_in_bounds (len i data_pos : Z) :
  is_size_t len -> (i, data_pos) ∈ iterations len ->
  let msgblk_len := copy_len len data_pos in
  1 <= i <= block_count len
  /\ data_pos = Z.min (64 * (i - 1)) len
  /\ wrap64 (len - data_pos) = len - data_pos
  /\ 0 <= msgblk_len <= 64
  /\ (Z.to_nat msgblk_len <= length (replicate 64 0))%nat
  /\ 0 <= data_pos /\ data_pos + msgblk_len <= len
  /\ wrap64 (data_pos + msgblk_len) = data_pos + msgblk_len.
Proof.
  intros Hlen Hit msgblk_len.
  pose proof Hlen as Hlen'. unfold is_size_t in Hlen'.
  rewrite iterations_closed in Hit by assumption.
  apply list_elem_of_fmap in Hit as (k & Heq & Hk%elem_of_seqZ).
  cbv beta in Heq. injection Heq as -> ->.
  assert (msgblk_len = Z.min (len - Z.min (64 * (k - 1)) len) 64) as E
    by (apply copy_len_min; [assumption | lia]).
  rewrite length_replicate.
  rewrite !wrap64_small by (unfold is_size_t; lia).
  repeat split; lia.
Qed.

Lemma memcpy_in_bounds_witness :
  (2, 64) ∈ iterations 100
  /\ 64 + copy_len 100 64 <= 100.
Proof.
  assert ((2, 64) ∈ iterations 100) as H
    by (apply (list_elem_of_lookup_2 _ 1%nat); reflexivity).
  split; [exact H|].
  apply (memcpy_in_bounds 100 2 64); [unfold is_size_t; lia | exact H].
Defined.

(** X9.  Over a whole call the copies read each of the [len] bytes of the
    input once, in order, and nothing else. *)
Theorem all_input_copied (data : buffer) (len : Z) :
  is_size_t len -> copied_bytes data len = data <$> seqZ 0 len.
Proof.
  intros Hlen. pose proof Hlen as Hlen'. unfold is_size_t in Hlen'.
  unfold copied_bytes. rewrite iterations_split by assumption.
  rewrite !fmap_app, !concat_app, <- list_fmap_compose.
  rewrite (list_fmap_ext _ (fun k => data <$> seqZ (64 * k) 64)).
  2: { intros j k Hk. apply lookup_seqZ in Hk. cbn.
       rewrite copy_len_min by (trivial; divlia). f_equal. f_equal. divlia. }
  rewrite <- (Z2Nat.id (len / 64)) at 1 by divlia.
  rewrite concat_chunks, Z2Nat.id by divlia.
  assert (concat ((fun it => data <$> seqZ it.2 (copy_len len it.2))
                  <$> (if len mod 64 >=? 56 then [(len / 64 + 2, len)] else []))
          = []) as ->.
  { destruct (len mod 64 >=? 56); [|reflexivity]. cbn.
    rewrite copy_len_min by (trivial; lia).
    replace (Z.min (len - len) 64) with 0 by lia. reflexivity. }
  cbn [fmap list_fmap concat fst snd]. rewrite !app_nil_r.
  rewrite copy_len_min by (trivial; divlia).
  replace (Z.min (len - 64 * (len / 64)) 64) with (len mod 64) by divlia.
  rewrite <- fmap_app. f_equal.
  replace (seqZ (64 * (len / 64)) (len mod 64))
    with (seqZ (0 + 64 * (len / 64)) (len mod 64)) by (f_equal; lia).
  rewrite <- seqZ_app by divlia. f_equal. divlia.
Qed.

Lemma all_input_copied_witness :
  copied_bytes (fun k => k mod 256) 130 = (fun k => k mod 256) <$> seqZ 0 130.
Proof.
  apply (all_input_copied (fun k => k mod 256) 130). unfold is_size_t. lia.
Defined.

(** X10.  In the last iteration the eight bytes that the length field
    replaces are zero before the overwrite: the length field never takes
    the place of an input byte or of the marker. *)
Theorem length_field_overwrites_zeros (data : buffer) (len : Z) :
  is_size_t len ->
  exists b,
    last (raw_blocks data len) = Some b
    /\ length b = 64%nat
    /\ drop 56 b = replicate 8 0.
Proof.
  intros Hlen. pose proof Hlen as Hlen'. unfold is_size_t in Hlen'.
  rewrite raw_blocks_closed by assumption.
  destruct (Z.geb_spec (len mod 64) 56) as [Hr|Hr].
  - exists (replicate 64 0). split; [|split; reflexivity].
    rewrite app_assoc. apply last_snoc.
  - eexists. rewrite app_nil_r. split; [apply last_snoc|].
    split; [by apply length_last_data|].
    replace (Z.to_nat (63 - len mod 64))
      with (Z.to_nat (55 - len mod 64) + 8)%nat by divlia.
    rewrite replicate_add.
    change (?a ++ 128 :: ?b ++ ?c) with (a ++ (128 :: b) ++ c).
    rewrite app_assoc. apply drop_app_length'.
    rewrite length_app, length_fmap, length_seqZ. cbn [length].
    rewrite length_replicate. divlia.
Qed.

Lemma length_field_overwrites_zeros_witness :
  exists b,
    last (raw_blocks (fun _ => 0x61) 55) = Some b
    /\ length b = 64%nat /\ drop 56 b = replicate 8 0.
Proof.
  apply (length_field_overwrites_zeros (fun _ => 0x61) 55).
  unfold is_size_t. lia.
Defined.

(** X11.  The number of blocks is the least one that holds the input, the
    marker byte and the eight bytes of the length field. *)
Theorem block_count_minimal (len : Z) :
  is_size_t len ->
  64 * (block_count len - 1) < len + 1 + 8 <= 64 * block_count len.
Proof.
  intros Hlen. rewrite block_count_nowrap by assumption.
  unfold is_size_t in Hlen.
  destruct (Z.geb_spec (len mod 64) 56); divlia.
Qed.

Lemma block_count_minimal_witness :
  64 * (block_count 56 - 1) < 56 + 1 + 8 <= 64 * block_count 56.
Proof. apply (block_count_minimal 56). unfold is_size_t. lia. Defined.

(** ** What the result depends on *)

(** X12.  A call reads the first [len] bytes at [data] and nothing beyond
    them: two buffers that agree on these bytes give the same result. *)
Theorem sha256_reads_len_bytes (data data' : buffer) (len : Z) (s : statics) :
  is_size_t len -> (forall k, 0 <= k < len -> data k = data' k) ->
  sha256 data len s = sha256 data' len s.
Proof.
  intros Hlen Hdata. unfold sha256.
  by rewrite (sha256_hash_ext data data' len).
Qed.

Lemma sha256_reads_len_bytes_witness :
  sha256 (buffer_of_list [0x61; 0x62; 0x63; 0x64]) 3 s_init
  = sha256 (buffer_of_list [0x61; 0x62; 0x63]) 3 s_init.
Proof.
  apply sha256_reads_len_bytes; [unfold is_size_t; lia|].
  intros k Hk.
  assert (k = 0 \/ k = 1 \/ k = 2) as [-> | [-> | ->]] by lia; reflexivity.
Defined.

(** X13.  A call overwrites the whole of [md]: what it returns and leaves
    in [md] does not depend on what [md] held before, in particular not on
    an earlier call. *)
Theorem sha256_forgets_md (data : buffer) (len : Z) (s s' : statics) :
  length (md s) = 32%nat -> length (md s') = 32%nat ->
  sha256 data len s = sha256 data len s'.
Proof. intros Hs Hs'. by rewrite !sha256_eq. Qed.

Lemma sha256_forgets_md_witness :
  sha256 (buffer_of_list []) 0 s_init
  = sha256 (buffer_of_list []) 0
      (sha256 (buffer_of_list [0x61; 0x62; 0x63]) 3 s_init).2.
Proof. apply sha256_forgets_md; reflexivity. Defined.

(** ** The digest *)

Lemma sha256_loop_u32 data len N fuel : forall i data_pos H,
  length H = 8%nat -> Forall is_u32 H ->
  Forall is_u32 (sha256_loop fuel data len N i data_pos H).
Proof.
  induction fuel as [|fuel IH]; intros i data_pos H Hlen HH; [assumption|].
  cbn [sha256_loop]. destruct (i <=? N); [|assumption].
  apply IH; [by rewrite length_process_block | by apply process_block_u32].
Qed.

Lemma sha256_hash_u32 data len : Forall is_u32 (sha256_hash data len).
Proof. apply sha256_loop_u32; [reflexivity | apply H_init_u32]. Qed.

Lemma digest_bytes_be H :
  Forall is_u32 H -> digest_bytes H = concat (be_bytes32 <$> H).
Proof.
  unfold digest_bytes. induction 1 as [|x H Hx _ IH]; [reflexivity|].
  cbn [map flat_map fmap list_fmap concat]. by rewrite IH, store32_BYTESWAP.
Qed.

Lemma be_bytes32_u8 x : Forall is_u8 (be_bytes32 x).
Proof. unfold be_bytes32. repeat (apply Forall_cons; split; [apply mod_u8|]). apply Forall_nil_2. Qed.

(** X14.  For every input the 32 bytes left in [md] are the eight words
    of the final hash value, [H[ 0 ]] first, each most significant byte
    first; each of the eight words is a 32-bit word and each of the 32
    bytes a byte. *)
Theorem digest_big_endian (data : buffer) (len : Z) (s : statics) :
  length (md s) = 32%nat ->
  let H := sha256_hash data len in
  length H = 8%nat /\ Forall is_u32 H
  /\ read_digest (sha256 data len s).2 (sha256 data len s).1
     = Some (concat (be_bytes32 <$> H))
  /\ length (concat (be_bytes32 <$> H)) = 32%nat
  /\ Forall is_u8 (concat (be_bytes32 <$> H)).
Proof.
  intros Hs H. pose proof (sha256_hash_u32 data len) as Hu32.
  pose proof (length_sha256_hash data len) as Hlen. fold H in Hu32, Hlen.
  split; [assumption|]. split; [assumption|]. split; [|split].
  - rewrite sha256_read_digest by assumption. fold H.
    by rewrite digest_bytes_be.
  - rewrite <- digest_bytes_be, length_digest_bytes, Hlen by assumption.
    reflexivity.
  - apply Forall_concat, Forall_fmap, Forall_forall.
    intros x _. apply be_bytes32_u8.
Qed.

Lemma digest_big_endian_witness :
  read_digest (sha256 (buffer_of_list []) 0 s_init).2
              (sha256 (buffer_of_list []) 0 s_init).1
  = Some (concat (be_bytes32 <$> sha256_hash (buffer_of_list []) 0)).
Proof. apply (digest_big_endian (buffer_of_list []) 0 s_init). reflexivity. Defined.

(** ** The words of the padded message *)

Lemma be_words_be_bytes32 x rest :
  is_u32 x -> be_words (be_bytes32 x ++ rest) = x :: be_words rest.
Proof.
  intros Hx. unfold be_bytes32. cbn [app be_words]. f_equal.
  by apply le32_bytes.
Qed.

Lemma be_words_block_bytes M : forall rest,
  Forall is_u32 M -> be_words (block_bytes M ++ rest) = M ++ be_words rest.
Proof.
  unfold block_bytes. induction M as [|x M IH]; intros rest HM; [reflexivity|].
  apply Forall_cons in HM as [Hx HM].
  cbn [fmap list_fmap concat]. rewrite <- app_assoc.
  rewrite be_words_be_bytes32 by assumption. cbn [app]. f_equal. by apply IH.
Qed.

Lemma be_words_padded (Ms : list (list Z)) :
  Forall (Forall is_u32) Ms ->
  be_words (concat (block_bytes <$> Ms)) = concat Ms.
Proof.
  induction 1 as [|M Ms HM _ IH]; [reflexivity|].
  cbn [fmap list_fmap concat]. by rewrite be_words_block_bytes, IH.
Qed.

(** X15.  The words handed to the message schedule, block after block, are
    the padded message read four bytes a word, most significant byte
    first; for an input of bytes they are the big-endian words of the
    input followed by the marker, the zeros and the bit length. *)
Theorem blocks_are_padded_words (data : buffer) (len : Z) :
  is_size_t len -> (forall k, 0 <= k < len -> is_u8 (data k)) ->
  concat (blocks data len) = be_words (padded_message data len)
  /\ concat (blocks data len)
     = be_words ((data <$> seqZ 0 len)
                 ++ 0x80 :: replicate (Z.to_nat (64 * block_count len - len - 9)) 0
                 ++ be_bytes64 (wrap64 (len * 8))).
Proof.
  intros Hlen Hdata.
  assert (concat (blocks data len) = be_words (padded_message data len)) as E.
  { unfold padded_message. symmetry. apply be_words_padded.
    apply Forall_forall. intros M HM. by apply blocks_wf in HM as [_ ?]. }
  split; [exact E|]. by rewrite E, padded_message_closed.
Qed.

Lemma blocks_are_padded_words_witness :
  let data := buffer_of_list [0x61; 0x62; 0x63] in
  concat (blocks data 3) = be_words (padded_message data 3).
Proof.
  intros data.
  apply (blocks_are_padded_words data 3); [unfold is_size_t; lia|].
  intros k Hk. unfold is_u8.
  assert (k = 0 \/ k = 1 \/ k = 2) as [-> | [-> | ->]] by lia;
    (vm_compute; split; [discriminate | reflexivity]).
Defined.

(** ** The message schedule and the array [W] *)

Lemma schedule_from_indep_lookup (W0 W0' M : list Z) :
  length W0 = 64%nat -> length W0' = 64%nat ->
  forall n t, (t < n)%nat -> (t < 64)%nat ->
  schedule_from W0 M !!! t = schedule_from W0' M !!! t.
Proof.
  intros HW HW'. induction n as [|n IH]; intros t Ht Ht64; [lia|].
  destruct (decide (t < 16)%nat) as [Hlt|Hge].
  - by rewrite !schedule_from_lt16.
  - rewrite !schedule_from_ge16 by lia.
    apply schedule_word_ext; [lia|]. intros j Hj. apply IH; lia.
Qed.

(** X16.  The schedule does not depend on what the uninitialised array
    [W] holds when the block is entered: every entry is written before it
    is read. *)
Theorem schedule_ignores_old_W (W0 W0' M : list Z) :
  length W0 = 64%nat -> length W0' = 64%nat ->
  schedule_from W0 M = schedule_from W0' M.
Proof.
  intros HW HW'.
  assert (forall W, length W = 64%nat -> length (schedule_from W M) = 64%nat)
    as Hlen.
  { intros W HWlen. unfold schedule_from.
    by rewrite length_schedule_expand, length_schedule_copy. }
  apply (list_eq_same_length _ _ 64); [by apply Hlen | by apply Hlen|].
  intros t x y Ht Hx Hy.
  apply list_lookup_total_correct in Hx, Hy. subst.
  apply (schedule_from_indep_lookup W0 W0' M HW HW' (S t)); lia.
Qed.

Lemma schedule_ignores_old_W_witness :
  schedule_from (replicate 64 0) (0x80000000 :: replicate 15 0)
  = schedule_from (replicate 64 0xFFFFFFFF) (0x80000000 :: replicate 15 0).
Proof. apply schedule_ignores_old_W; reflexivity. Defined.

(** ** Blocks of data and longer inputs *)

Lemma take_data_blocks (data : buffer) len k :
  is_size_t len -> 0 <= k <= len / 64 ->
  take (Z.to_nat k) (blocks data len)
  = (fun j => msgblk_words (data <$> seqZ (64 * j) 64)) <$> seqZ 0 k.
Proof.
  intros Hlen Hk. rewrite blocks_closed by assumption.
  replace (len / 64) with (k + (len / 64 - k)) at 1 by lia.
  rewrite seqZ_app, fmap_app, <- app_assoc by lia.
  apply take_app_length'. rewrite length_fmap, length_seqZ. reflexivity.
Qed.

(** X17.  The first [len / 64] blocks hold data only: two inputs, of any
    lengths, that share their first [64 * k] bytes and both have [k] full
    blocks of data give the same first [k] blocks, hence the same hash
    value after these blocks. *)
Theorem data_blocks_prefix (data data' : buffer) (len len' k : Z) :
  is_size_t len -> is_size_t len' ->
  0 <= k <= len / 64 -> k <= len' / 64 ->
  (forall j, 0 <= j < 64 * k -> data j = data' j) ->
  take (Z.to_nat k) (blocks data len) = take (Z.to_nat k) (blocks data' len')
  /\ fold_left process_block (take (Z.to_nat k) (blocks data len)) H_init
     = fold_left process_block (take (Z.to_nat k) (blocks data' len')) H_init.
Proof.
  intros Hlen Hlen' Hk Hk' Hdata.
  assert (take (Z.to_nat k) (blocks data len)
          = take (Z.to_nat k) (blocks data' len')) as E.
  { rewrite !take_data_blocks by (trivial; lia).
    apply list_fmap_ext. intros n j Hj. apply lookup_seqZ in Hj.
    cbv beta. f_equal. apply fmap_seqZ_ext. intros; apply Hdata; lia. }
  split; [exact E | by rewrite E].
Qed.

Lemma data_blocks_prefix_witness :
  take (Z.to_nat 1) (blocks (fun _ => 0x61) 64)
  = take (Z.to_nat 1) (blocks (fun _ => 0x61) 200).
Proof.
  apply (data_blocks_prefix (fun _ => 0x61) (fun _ => 0x61) 64 200 1);
    try (unfold is_size_t; lia); try reflexivity.
  - change (64 / 64) with 1. lia.
  - change (200 / 64) with 3. lia.
Defined.

(** ** The output routines *)

Lemma hex_digit_unhex d :
  0 <= d < 16 ->
  unhex_digit (hex_digit d) = d /\ is_hex_digit (hex_digit d) = true.
Proof.
  intros Hd.
  assert (Forall (fun d => unhex_digit (hex_digit d) = d
                           /\ is_hex_digit (hex_digit d) = true)
                 (seqZ 0 16)) as H
    by (vm_compute; repeat constructor).
  rewrite Forall_seqZ in H. apply H. lia.
Qed.

Lemma length_hex l : String.length (hex l) = (2 * length l)%nat.
Proof. induction l as [|x l IH]; cbn [hex String.length length]; lia. Qed.

Lemma length_append (s1 s2 : string) :
  String.length (String.append s1 s2)
  = (String.length s1 + String.length s2)%nat.
Proof. induction s1 as [|c s1 IH]; cbn; [reflexivity | by rewrite IH]. Qed.

Lemma unhex_hex l :
  Forall is_u8 l -> unhex (String.append (hex l) newline) = l.
Proof.
  induction 1 as [|x l Hx _ IH]; [reflexivity|].
  unfold is_u8 in Hx. cbn [hex String.append unhex]. rewrite IH. f_equal.
  destruct (hex_digit_unhex (x / 16)) as [-> _]; [divlia|].
  destruct (hex_digit_unhex (x mod 16)) as [-> _]; [divlia|]. divlia.
Qed.

Lemma hex_digits l :
  Forall is_u8 l -> string_forallb is_hex_digit (hex l) = true.
Proof.
  induction 1 as [|x l Hx _ IH]; [reflexivity|].
  unfold is_u8 in Hx. cbn [hex string_forallb]. rewrite IH.
  destruct (hex_digit_unhex (x / 16)) as [_ ->]; [divlia|].
  destruct (hex_digit_unhex (x mod 16)) as [_ ->]; [divlia|]. reflexivity.
Qed.

(** X18.  [print_hash] writes 65 characters: 64 digits among [0-9a-f],
    two a byte, high digit first, and a newline.  Reading the digits back
    gives the 32 bytes, so that two different digests are never printed
    alike. *)
Theorem print_hash_format (hash hash' : buffer) :
  (forall k, 0 <= k < 32 -> is_u8 (hash k)) ->
  (forall k, 0 <= k < 32 -> is_u8 (hash' k)) ->
  String.length (print_hash hash) = 65%nat
  /\ print_hash hash = String.append (hex (hash <$> seqZ 0 32)) newline
  /\ string_forallb is_hex_digit (hex (hash <$> seqZ 0 32)) = true
  /\ unhex (print_hash hash) = hash <$> seqZ 0 32
  /\ (print_hash hash = print_hash hash' ->
      hash <$> seqZ 0 32 = hash' <$> seqZ 0 32).
Proof.
  intros Hh Hh'.
  assert (forall h : buffer, (forall k, 0 <= k < 32 -> is_u8 (h k)) ->
          Forall is_u8 (h <$> seqZ 0 32)) as Hu8.
  { intros h H. apply Forall_fmap, Forall_seqZ. intros k Hk. apply H. lia. }
  split; [|split; [reflexivity|split; [|split]]].
  - unfold print_hash. rewrite length_append, length_hex, length_fmap, length_seqZ.
    reflexivity.
  - by apply hex_digits, Hu8.
  - by apply unhex_hex, Hu8.
  - intros E. apply (f_equal unhex) in E. unfold print_hash in E.
    by rewrite !unhex_hex in E by (by apply Hu8).
Qed.

Lemma print_hash_format_witness :
  String.length (print_hash (fun k => k)) = 65%nat.
Proof.
  apply (print_hash_format (fun k => k) (fun k => k));
    intros k Hk; unfold is_u8; lia.
Defined.

Lemma lookup_total_buffer (m : buffer) n (j : nat) :
  Z.of_nat j < n -> (m <$> seqZ 0 n) !!! j = m (Z.of_nat j).
Proof.
  intros Hj. apply list_lookup_total_correct.
  rewrite list_lookup_fmap, lookup_seqZ_lt by lia. reflexivity.
Qed.

(** X19.  [print_message_block] writes sixteen rows, one for each 32-bit
    word of the block as the little-endian host reads it: the four bytes
    of the word, most significant first, each as two hexadecimal digits
    and a space, then a newline; 208 characters in all. *)
Theorem print_message_block_rows (m : buffer) (w : nat) :
  (forall k, 0 <= k < 64 -> is_u8 (m k)) -> (w < 16)%nat ->
  print_message_block m
  = fold_right String.append EmptyString
      ((fun w => print_message_row m (4 * w)) <$> seqZ 0 16)
  /\ String.length (print_message_block m) = 208%nat
  /\ print_message_row m (4 * Z.of_nat w)
     = hex_sp_line (be_bytes32 (load32 (m <$> seqZ 0 64) w)).
Proof.
  intros Hm Hw. split; [reflexivity|]. split; [reflexivity|].
  unfold load32. rewrite !lookup_total_buffer by lia.
  rewrite be_bytes32_le32 by (apply Hm; lia).
  unfold print_message_row, hex_sp_line. cbn [fold_right].
  replace (Z.of_nat (4 * w + 3)) with (4 * Z.of_nat w + 3) by lia.
  replace (Z.of_nat (4 * w + 2)) with (4 * Z.of_nat w + 2) by lia.
  replace (Z.of_nat (4 * w + 1)) with (4 * Z.of_nat w + 1) by lia.
  replace (Z.of_nat (4 * w)) with (4 * Z.of_nat w) by lia.
  reflexivity.
Qed.

Lemma print_message_block_rows_witness :
  print_message_row (fun k => k) (4 * Z.of_nat 2)
  = hex_sp_line (be_bytes32 (load32 ((fun k => k) <$> seqZ 0 64) 2)).
Proof.
  apply (print_message_block_rows (fun k => k) 2); [|lia].
  intros k Hk. unfold is_u8. lia.
Defined.

(** X20.  [main] hashes 1000 bytes ['a'] and prints the digest that the
    call left in [md], read through the returned pointer at once: the
    big-endian bytes of the final hash value in hexadecimal, which is
    41edece4...7ea3, and a newline, whatever [md] held before; it
    returns 0. *)
Theorem main_prints_digest (s : statics) :
  length (md s) = 32%nat ->
  let msg := buffer_of_list (replicate 1000 0x61) in
  main s
  = (Some (print_hash
             (buffer_of_list (concat (be_bytes32 <$> sha256_hash msg 1000)))), 0)
  /\ main s
     = (Some (String.append
                "41edece42d63e8d9bf515a9ba6932e1c20cbc9f5a5d134645adb5db1b9737ea3"
                newline), 0).
Proof.
  intros Hs msg.
  assert (main s = (Some (print_hash (buffer_of_list
            (concat (be_bytes32 <$> sha256_hash msg 1000)))), 0)) as E.
  { unfold main. cbv zeta. change (Z.to_nat 1000) with 1000%nat. fold msg.
    rewrite sha256_eq by assumption. cbn [read_digest md fmap option_fmap option_map].
    by rewrite digest_bytes_be by apply sha256_hash_u32. }
  split; [exact E|]. rewrite E. vm_compute. reflexivity.
Qed.

Lemma main_prints_digest_witness :
  main s_init
  = (Some (String.append
             "41edece42d63e8d9bf515a9ba6932e1c20cbc9f5a5d134645adb5db1b9737ea3"
             newline), 0).
Proof. apply (main_prints_digest s_init). reflexivity. Defined.

(** ** From the input to the digest *)

Lemma chunks_concat n (Ms : list (list Z)) :
  Forall (fun M => length M = n) Ms -> chunks n (length Ms) (concat Ms) = Ms.
Proof.
  induction 1 as [|M Ms HM _ IH]; [reflexivity|].
  cbn [length chunks concat].
  rewrite take_app_length', drop_app_length' by done. by rewrite IH.
Qed.

(** X21.  End to end, for an input of [len < 2^61] bytes: the input,
    followed by the marker, by zeros up to eight bytes before a multiple
    of 64 and by the big-endian bit length, is read as big-endian words and
    cut into blocks of sixteen; starting from the initial hash value each
    block is expanded and compressed as the specification writes it; and
    the bytes left in [md] are the big-endian bytes of the result. *)
Theorem sha256_end_to_end (data : buffer) (len : Z) (s : statics) :
  0 <= len < 2 ^ 61 -> (forall k, 0 <= k < len -> is_u8 (data k)) ->
  length (md s) = 32%nat ->
  let N := len / 64 + 1 + (if len mod 64 >=? 56 then 1 else 0) in
  let padded :=
    (data <$> seqZ 0 len)
    ++ 0x80 :: replicate (Z.to_nat (64 * N - len - 9)) 0
    ++ be_bytes64 (len * 8) in
  let H :=
    fold_left (fun H M => spec_compress H (schedule M))
              (chunks 16 (Z.to_nat N) (be_words padded)) H_init in
  Z.of_nat (length padded) = 64 * N
  /\ sha256_hash data len = H
  /\ read_digest (sha256 data len s).2 (sha256 data len s).1
     = Some (concat (be_bytes32 <$> H)).
Proof.
  intros Hlen Hdata Hs N padded H.
  assert (is_size_t len) as Hsz by (unfold is_size_t; lia).
  pose proof (block_count_nowrap len Hsz) as HN. fold N in HN.
  assert (padded = padded_message data len) as Hp.
  { rewrite (padded_message_closed data len Hsz Hdata). rewrite HN.
    rewrite (wrap64_small (len * 8)) by (unfold is_size_t; lia). reflexivity. }
  assert (sha256_hash data len = H) as HH.
  { rewrite sha256_hash_blocks by assumption.
    rewrite fold_process_block_spec by (reflexivity || apply H_init_u32).
    unfold H. do 2 f_equal. rewrite Hp.
    unfold padded_message. rewrite be_words_padded.
    2: { apply Forall_forall. intros M HM. by apply blocks_wf in HM as [_ ?]. }
    rewrite <- HN, <- (length_blocks data len), Nat2Z.id by assumption.
    symmetry. apply chunks_concat, blocks_length16. }
  split; [|split].
  - by rewrite Hp, length_padded_message, HN.
  - exact HH.
  - rewrite sha256_read_digest by assumption. rewrite HH.
    apply f_equal, digest_bytes_be. rewrite <- HH. apply sha256_hash_u32.
Qed.

Lemma sha256_end_to_end_witness :
  let data := buffer_of_list [0x61; 0x62; 0x63] in
  sha256_hash data 3
  = fold_left (fun H M => spec_compress H (schedule M))
      (chunks 16 (Z.to_nat (3 / 64 + 1 + 0))
         (be_words ((data <$> seqZ 0 3)
                    ++ 0x80 :: replicate (Z.to_nat (64 * (3 / 64 + 1 + 0) - 3 - 9)) 0
                    ++ be_bytes64 (3 * 8))))
      H_init.
Proof.
  intros data.
  apply (sha256_end_to_end data 3 s_init); [lia | | reflexivity].
  intros k Hk. unfold is_u8.
  assert (k = 0 \/ k = 1 \/ k = 2) as [-> | [-> | ->]] by lia;
    (vm_compute; split; [discriminate | reflexivity]).
Defined.
